(** * niar: the CXXRTL build driver ([src/niar/cxxrtl.py])

    A shallow embedding of the driver and of the incremental command runner
    it drives.  The driver is embedded from its source: [main] becomes a
    computation in a small state-and-exception monad whose state is the log
    of the calls the driver makes (on the command runner, on the filesystem),
    [add_arguments] a computation over the argument parser, [_make_absolute]
    a function on pure paths.  The command runner itself
    ([niar/cmdrunner.py]) and the project helper ([niar/project.py]) are
    not part of the sources at hand; the definitions that stand for them say
    so in their comment. *)

From stdpp Require Import base decidable option list sorting strings pretty countable gmap.
From Stdlib Require Import ZArith Lia Ascii.
From Stdlib Require String.

(** ** Exceptions and results *)

(** The exceptions the driver raises itself, or lets through from [pathlib]. *)
Inductive exn : Type :=
| AssertionError (msg : string)
| RuntimeError (msg : string)
| ValueError.

Inductive result (A : Type) : Type :=
| Ok (a : A)
| Raise (e : exn).
Arguments Ok {A} a.
Arguments Raise {A} e.

(** ** Strings *)

Module Str.

Definition nl : string := String "010"%char "".

(** [s.rfind(c)]: the index of the last occurrence of [c], if there is one. *)
Fixpoint rfind (c : ascii) (s : string) : option nat :=
  match s with
  | "" => None
  | String a s' =>
      match rfind c s' with
      | Some i => Some (S i)
      | None => if Ascii.eqb a c then Some 0 else None
      end
  end.

(** [s.startswith(pre)] *)
Fixpoint starts_with (pre s : string) : bool :=
  match pre, s with
  | "", _ => true
  | String a pre', String b s' => Ascii.eqb a b && starts_with pre' s'
  | String _ _, "" => false
  end.

(** [s.endswith(suf)]: [s] from some position on is [suf]. *)
Fixpoint ends_with (suf s : string) : bool :=
  String.eqb s suf ||
  match s with
  | "" => false
  | String _ s' => ends_with suf s'
  end.

(** [s.split(sep)] for a separator of one character: the pieces between the
    separators, empty pieces included. *)
Fixpoint split (sep : ascii) (s : string) : list string :=
  match s with
  | "" => [""]
  | String a s' =>
      if Ascii.eqb a sep then "" :: split sep s'
      else match split sep s' with
           | piece :: pieces => String a piece :: pieces
           | [] => [String a ""]
           end
  end.

(** [sep.join(l)] *)
Fixpoint join (sep : string) (l : list string) : string :=
  match l with
  | [] => ""
  | [x] => x
  | x :: l' => x +:+ sep +:+ join sep l'
  end.

End Str.

(** ** Pure POSIX paths ([pathlib.PurePosixPath], Python 3.12)

    A path is its root flag and its components; [pathlib] compares paths by
    these, so equality of paths is equality of records.  The model identifies
    the POSIX root [//] with [/]. *)

Record path : Type := Path_ { is_absolute : bool; parts : list string }.

Global Instance path_eq_dec : EqDecision path.
Proof. solve_decision. Defined.

Definition path_to_pair (p : path) : bool * list string := (is_absolute p, parts p).
Definition path_of_pair (x : bool * list string) : path := Path_ x.1 x.2.

Lemma path_of_to_pair p : path_of_pair (path_to_pair p) = p.
Proof. by destruct p. Qed.

Global Instance path_countable : Countable path :=
  inj_countable' path_to_pair path_of_pair path_of_to_pair.

Module PurePath.

(** The components of one segment: split at [/], empty components and [.]
    dropped. *)
Definition components (seg : string) : list string :=
  filter (λ c, c ≠ "" ∧ c ≠ ".") (Str.split "/" seg).

Definition seg_is_absolute (seg : string) : bool := Str.starts_with "/" seg.

(** [Path(seg)] *)
Definition of_string (seg : string) : path :=
  Path_ (seg_is_absolute seg) (components seg).

(** [self / seg]: a segment that starts with [/] replaces the path so far. *)
Definition div (self : path) (seg : string) : path :=
  if seg_is_absolute seg then of_string seg
  else Path_ (is_absolute self) (parts self ++ components seg).

(** [self.joinpath( *segs)] *)
Definition joinpath (self : path) (segs : list string) : path :=
  foldl div self segs.

(** [str(self)] *)
Definition str (self : path) : string :=
  if is_absolute self then "/" +:+ Str.join "/" (parts self)
  else match parts self with
       | [] => "."
       | _ => Str.join "/" (parts self)
       end.

(** [self.name] *)
Definition name (self : path) : string := List.last (parts self) "".

(** [self.stem]: the name without its last suffix; a leading or a trailing
    dot starts no suffix. *)
Definition stem (self : path) : string :=
  let n := name self in
  match Str.rfind "." n with
  | Some i =>
      if (0 <? i)%nat && (i <? String.length n - 1)%nat
      then String.substring 0 i n else n
  | None => n
  end.

Fixpoint strip_prefix (pre l : list string) : option (list string) :=
  match pre, l with
  | [], _ => Some l
  | x :: pre', y :: l' =>
      if decide (x = y) then strip_prefix pre' l' else None
  | _ :: _, [] => None
  end.

(** [self.relative_to(other)], without [walk_up]: [ValueError] unless
    [other] is [self] or one of its parents. *)
Definition relative_to (self other : path) : result path :=
  if decide (is_absolute self = is_absolute other) then
    match strip_prefix (parts other) (parts self) with
    | Some rest => Ok (Path_ false rest)
    | None => Raise ValueError
    end
  else Raise ValueError.

(** [p] is strictly below the directory [dir]. *)
Definition below (dir p : path) : bool :=
  bool_decide (is_absolute dir = is_absolute p) &&
  match strip_prefix (parts dir) (parts p) with
  | Some (_ :: _) => true
  | _ => false
  end.

(** [dir.glob("**/*" + suffix)] over the listing [files] of the paths that
    exist: the entries below [dir] whose name ends with [suffix], in the
    order of the listing. *)
Definition glob_rec (dir : path) (suffix : string) (files : list path) : list path :=
  filter (λ p, below dir p = true ∧ Str.ends_with suffix (name p) = true) files.

End PurePath.

(** ** [_make_absolute] *)

Definition _make_absolute (cwd : path) (p : path) : result path :=
  if is_absolute p then
    match PurePath.relative_to p cwd with
    | Ok r => Ok r
    | Raise ValueError =>
        Raise (AssertionError "path must be relative to cwd for builtin-yosys to access it")
    | Raise e => Raise e
    end
  else Ok p.

(** ** The state-and-exception monad of the driver

    A computation reads and extends a state (the log of calls, or the
    parser) and either returns or raises; the state reached when an
    exception is raised is kept. *)

Definition M (S A : Type) : Type := S → S * result A.

Global Instance M_ret {S} : MRet (M S) := λ A a s, (s, Ok a).

Global Instance M_bind {S} : MBind (M S) := λ A B f m s,
  match m s with
  | (s', Ok a) => f a s'
  | (s', Raise e) => (s', Raise e)
  end.

Definition raise {S A} (e : exn) : M S A := λ s, (s, Raise e).

Definition lift {S A} (r : result A) : M S A := λ s, (s, r).

Definition get {S} : M S S := λ s, (s, Ok s).

Definition modify {S} (f : S → S) : M S unit := λ s, (f s, Ok tt).

(** [for x in l: body(x)] *)
Fixpoint for_each {S A} (l : list A) (body : A → M S unit) : M S unit :=
  match l with
  | [] => mret tt
  | x :: l' => body x ;; for_each l' body
  end.

(** [[f(x) for x in l]], [f] possibly raising *)
Fixpoint comprehension {S A B} (f : A → M S B) (l : list A) : M S (list B) :=
  match l with
  | [] => mret []
  | x :: l' => y ← f x; ys ← comprehension f l'; mret (y :: ys)
  end.

(** ** Python dictionaries, as the driver uses them

    Insertion-ordered; assigning to a key that is present replaces its value
    in place. *)

Fixpoint dict_set {K V} `{EqDecision K} (k : K) (v : V) (d : list (K * V)) : list (K * V) :=
  match d with
  | [] => [(k, v)]
  | (k', v') :: d' =>
      if decide (k = k') then (k', v) :: d' else (k', v') :: dict_set k v d'
  end.

(** ** JSON values, as [json.dump] receives them *)

#[warnings="-register-all"]
Inductive json : Type :=
| JString (s : string)
| JArray (xs : list json)
| JObject (members : list (string * json)).

(** ** The driver's data *)

Definition CXXFLAGS : list string :=
  [ "-std=c++17";
    "-g";
    "-pedantic";
    "-Wall";
    "-Wextra";
    "-Wno-zero-length-array";
    "-Wno-unused-parameter" ].

Module _Optimize.

Inductive t : Type := none | rtl | app | both.

Global Instance eq_dec : EqDecision t.
Proof. solve_decision. Defined.

Definition value (self : t) : string :=
  match self with
  | none => "none" | rtl => "rtl" | app => "app" | both => "both"
  end.

Definition members : list t := [none; rtl; app; both].

Definition opt_rtl (self : t) : bool := bool_decide (self ∈ [rtl; both]).

Definition opt_app (self : t) : bool := bool_decide (self ∈ [app; both]).

End _Optimize.

(** What the driver reads of the project: its name, its root directory
    ([np.path()]) and the names of its CXXRTL target classes
    ([np.cxxrtl_targets], possibly [None]). *)
Record Project : Type := {
  np_name : string;
  np_origin : path;
  cxxrtl_targets : option (list string);
}.

(** Modelled from the spec: the project's path helper ([niar/project.py] is
    not among the sources).  [np.path()] is the working root, the project
    path; [np.path(c, ...)] joins components to it and [np.path.build(c, ...)]
    is [np.path("build", c, ...)], as the driver's uses of both on the
    [build] directory require. *)
Definition np_path (np : Project) (cs : list string) : path :=
  PurePath.joinpath (np_origin np) cs.

Definition np_path_build (np : Project) (cs : list string) : path :=
  np_path np ("build" :: cs).

(** What the driver reads of the platform it builds for;
    [default_clk_frequency] is the value of
    [int(platform.default_clk_frequency)]. *)
Record Platform : Type := {
  default_clk_frequency : Z;
  uses_zig : bool;
}.

(** The parsed command line. *)
Record Args : Type := {
  target : string;
  compile : bool;
  optimize : _Optimize.t;
  debug : bool;
  vcd : option string;
  force : bool;
}.

(** The surroundings of a run: the working directory, the paths that exist
    (in the order [glob] yields them), the data directory of the Yosys found,
    and the RTLIL text of the design. *)
Record Env : Type := {
  cwd : path;
  listing : list path;
  yosys_data_dir : path;
  rtlil_text : string;
}.

(** An element of a command line: the driver mixes strings and paths. *)
Inductive arg : Type :=
| A_str (s : string)
| A_path (p : path).

Global Instance arg_eq_dec : EqDecision arg.
Proof. solve_decision. Defined.

Definition arg_str (a : arg) : string :=
  match a with
  | A_str s => s
  | A_path p => PurePath.str p
  end.

(** What [add_process] is given to execute: a Python function (the driver has
    one, which runs Yosys on the given arguments) or a command line. *)
Inductive command : Type :=
| Callable_yosys_run (args : list arg)
| Argv (args : list arg).

Global Instance command_eq_dec : EqDecision command.
Proof. solve_decision. Defined.

(** The calls of the driver that reach outside it, in program order. *)
Inductive event : Type :=
| Makedirs (p : path)
| NewCommandRunner (force : bool)
| Open_w (p : path)
| File_write (p : path) (text : string)
| Add_process (cmd : command) (infs : list path) (outf : path) (chdir : option string)
| Run
| Json_dump (p : path) (value : json)
| Copy (src dst : path)
| Run_cmd (cmd : list arg) (step : string).

Definition emit (e : event) : M (list event) unit := modify (λ log, log ++ [e]).

(** The value the driver hands to [json.dump]: lines 166-171. *)
Definition compile_commands_json (np : Project)
    (items : list (string * list string)) : json :=
  JArray ((λ '(file, arguments),
            JObject [ ("directory", JString (PurePath.str (np_path np [])));
                      ("file", JString file);
                      ("arguments", JArray (JString <$> arguments)) ]) <$> items).

(** Truth value of [args.vcd]: [None] and the empty string are false. *)
Definition truthy (s : option string) : bool :=
  match s with
  | Some s => bool_decide (s ≠ "")
  | None => false
  end.

(** ** [main] *)

Section Driver.

(** [cr.compile_commands.items()], as a function of the calls made so far:
    the attribute belongs to the command runner, which fills it as
    commands are added. *)
Variable compile_commands : list event → list (string * list string).

Variables (np : Project) (platform : Platform) (args : Args) (env : Env).

Definition il_path : path := np_path_build np [np_name np +:+ ".il"].

Definition cxxrtl_cc_path : path := np_path_build np [np_name np +:+ ".cc"].

(** Lines 107-130: the design is written as RTLIL next to a Yosys script
    that turns it into C++; the script is run as the first stage. *)
Definition elaboration : M (list event) unit :=
  emit (Open_w il_path) ;;
  emit (File_write il_path (rtlil_text env)) ;;
  yosys_script_path ←
    lift (_make_absolute (cwd env) (np_path_build np [np_name np +:+ "-cxxrtl.ys"]));
  emit (Open_w yosys_script_path) ;;
  (* black_boxes is empty: its loop writes nothing *)
  il ← lift (_make_absolute (cwd env) il_path);
  emit (File_write yosys_script_path ("read_rtlil " +:+ PurePath.str il +:+ Str.nl)) ;;
  cc ← lift (_make_absolute (cwd env) cxxrtl_cc_path);
  emit (File_write yosys_script_path
          ("write_cxxrtl -header " +:+ PurePath.str cc +:+ Str.nl)) ;;
  emit (Add_process (Callable_yosys_run [A_str "-q"; A_path yosys_script_path])
          [il_path; yosys_script_path] cxxrtl_cc_path None) ;;
  emit Run.

(** Lines 133-137: each C++ source with its object file and the files it
    depends on. *)
Definition cc_odep_paths : list (path * (path * list path)) :=
  let depfs := PurePath.glob_rec (np_path np ["cxxrtl"]) ".h" (listing env) in
  foldl (λ d p, dict_set p (np_path_build np [PurePath.stem p +:+ ".o"], depfs) d)
    [(cxxrtl_cc_path, (np_path_build np [np_name np +:+ ".o"], []))]
    (PurePath.glob_rec (np_path np ["cxxrtl"]) ".cc" (listing env)).

(** Lines 139-148 *)
Definition cxxflags : list string :=
  (CXXFLAGS ++
     [ "-DCLOCK_HZ=" +:+ pretty (default_clk_frequency platform) ] ++
     (if _Optimize.opt_rtl (optimize args) then ["-O3"] else ["-O0"]) ++
     (if debug args then ["-g"] else [])) ++
  (if uses_zig platform
   then ["-DCXXRTL_INCLUDE_CAPI_IMPL"; "-DCXXRTL_INCLUDE_VCD_CAPI_IMPL"]
   else []).

(** Lines 151-162: the command that compiles [cc_path] to [o_path]. *)
Definition compile_cmd (cc_path o_path : path) : list arg :=
  let cmd :=
    [A_str "c++"] ++ (A_str <$> cxxflags) ++
    [ A_str ("-I" +:+ PurePath.str (np_path np ["build"]));
      A_str ("-I" +:+ PurePath.str
               (PurePath.joinpath (yosys_data_dir env)
                  ["include"; "backends"; "cxxrtl"; "runtime"]));
      A_str "-c";
      A_path cc_path;
      A_str "-o";
      A_path o_path ] in
  if uses_zig platform then [A_str "zig"] ++ cmd else cmd.

(** Lines 150-175: one compile command per source, the compilation
    database, the second stage. *)
Definition compilation : M (list event) unit :=
  for_each cc_odep_paths (λ '(cc_path, (o_path, dep_paths)),
    emit (Add_process (Argv (compile_cmd cc_path o_path))
            ([cc_path] ++ dep_paths) o_path None)) ;;
  log ← get;
  emit (Json_dump (np_path_build np ["compile_commands.json"])
          (compile_commands_json np (compile_commands log))) ;;
  emit Run.

Definition exe_o_path : path := np_path_build np ["cxxrtl"].

Definition cc_o_paths : list path := (λ '(_, (o_path, _)), o_path) <$> cc_odep_paths.

(** Lines 179-197 *)
Definition link_zig : M (list event) unit :=
  o_args ← comprehension (λ p,
               r ← lift (PurePath.relative_to p (np_path np []));
               mret ("-Dcxxrtl_o_path=../" +:+ PurePath.str r)) cc_o_paths;
  let cmd :=
    [ "zig";
      "build";
      "-Dclock_hz=" +:+ pretty (default_clk_frequency platform);
      "-Dyosys_data_dir=" +:+ PurePath.str (yosys_data_dir env) ] ++ o_args in
  let cmd :=
    if _Optimize.opt_app (optimize args) then cmd ++ ["-Doptimize=ReleaseFast"]
    else cmd in
  let outf := PurePath.of_string "cxxrtl/zig-out/bin/cxxrtl" in
  emit (Add_process (Argv (A_str <$> cmd))
          (cc_o_paths ++ PurePath.glob_rec (np_path np ["cxxrtl"]) ".zig" (listing env))
          outf (Some "cxxrtl")) ;;
  emit Run ;;
  emit (Copy outf exe_o_path).

(** Lines 198-209 *)
Definition link_cxx : M (list event) unit :=
  let cmd :=
    [A_str "c++"] ++ (A_str <$> cxxflags) ++ (A_path <$> cc_o_paths) ++
    [A_str "-o"; A_path exe_o_path] in
  emit (Add_process (Argv cmd) cc_o_paths exe_o_path None) ;;
  emit Run.

(** Lines 211-215 *)
Definition run_built : M (list event) unit :=
  if negb (compile args) then
    let cmd := [A_path exe_o_path] in
    let cmd :=
      if truthy (vcd args)
      then cmd ++ [A_str "--vcd"; A_str (default "" (vcd args))] else cmd in
    emit (Run_cmd cmd "run")
  else mret tt.

(** [main], once the Yosys binary, the platform and the design are there:
    [find_yosys], [cxxrtl_target_by_name], [construct_top] and
    [rtlil.convert] are taken to have returned ([env], [platform]).  So are
    the calls that reach outside ([os.makedirs], [open], [f.write],
    [json.dump], [shutil.copy] and the methods of the command runner): the
    log holds them as calls that returned.  The exceptions kept are those of
    the path computations of [main] itself: the [AssertionError] of
    [_make_absolute] and the [ValueError] of [relative_to] in line 187.  A
    run of this definition is therefore a run of [main] that returns, or one
    that one of these two exceptions stops; a run that an exception out of
    the runner, the file system or [json] stops is a prefix of such a log
    and is not described. *)
Definition main : M (list event) unit :=
  emit (Makedirs (np_path_build np [])) ;;
  emit (NewCommandRunner (force args)) ;;
  elaboration ;;
  compilation ;;
  (if uses_zig platform then link_zig else link_cxx) ;;
  run_built.

End Driver.

(** ** [add_arguments] *)

(** One [parser.add_argument] call, with the keyword arguments the driver
    uses; [arg_required] is false and the others absent when not given. *)
Record Argument : Type := {
  arg_flags : list string;
  arg_action : option string;
  arg_type : option string;
  arg_choices : option (list string);
  arg_required : bool;
  arg_default : option string;
  arg_help : string;
}.

(** The parser: whether [func] has been set to [partial(main, np)], and the
    arguments added, in order. *)
Record Parser : Type := {
  parser_func : option Project;
  parser_arguments : list Argument;
}.

Definition set_defaults_func (np : Project) : M Parser unit :=
  modify (λ p, {| parser_func := Some np; parser_arguments := parser_arguments p |}).

Definition add_argument (a : Argument) : M Parser unit :=
  modify (λ p, {| parser_func := parser_func p;
                  parser_arguments := parser_arguments p ++ [a] |}).

(** [sorted(names)]: strings compare by their characters' codes. *)
Definition sorted (names : list string) : list string :=
  merge_sort (≤)%string names.

Definition add_arguments (np : Project) : M Parser unit :=
  set_defaults_func np ;;
  match sorted (default [] (cxxrtl_targets np)) with
  | [] => raise (RuntimeError "no cxxrtl targets defined")
  | first :: rest =>
      add_argument
        {| arg_flags := ["-t"; "--target"];
           arg_action := None;
           arg_type := None;
           arg_choices := Some (first :: rest);
           arg_required := bool_decide (rest ≠ []);
           arg_default := match rest with [] => Some first | _ => None end;
           arg_help := "which CXXRTL target to build" |}
  end ;;
  add_argument
    {| arg_flags := ["-c"; "--compile"];
       arg_action := Some "store_true";
       arg_type := None;
       arg_choices := None;
       arg_required := false;
       arg_default := None;
       arg_help := "compile only; don't run" |} ;;
  add_argument
    {| arg_flags := ["-O"; "--optimize"];
       arg_action := None;
       arg_type := Some "_Optimize";
       arg_choices := Some (_Optimize.value <$> _Optimize.members);
       arg_required := false;
       arg_default := Some (_Optimize.value _Optimize.rtl);
       arg_help := "build with optimizations (default: rtl)" |} ;;
  add_argument
    {| arg_flags := ["-d"; "--debug"];
       arg_action := Some "store_true";
       arg_type := None;
       arg_choices := None;
       arg_required := false;
       arg_default := None;
       arg_help := "generate source-level debug information" |} ;;
  add_argument
    {| arg_flags := ["-v"; "--vcd"];
       arg_action := Some "store";
       arg_type := Some "str";
       arg_choices := None;
       arg_required := false;
       arg_default := None;
       arg_help := "output a VCD file" |} ;;
  add_argument
    {| arg_flags := ["-f"; "--force"];
       arg_action := Some "store_true";
       arg_type := None;
       arg_choices := None;
       arg_required := false;
       arg_default := None;
       arg_help := "don't use cached compilations" |}.

(** ** The incremental command runner

    Modelled from the spec: the command runner ([niar/cmdrunner.py], class
    [CommandRunner]) is not among the sources; what follows is the
    orchestrator of the specification, sections 3 and 4: actions, the run
    record, the validity oracle, the executor, the invocation ledger.
    Actions of one stage run one after the other, in the order of their
    registration, which is one of the schedules the specification allows. *)

Module Orchestrator.

(** Modelled from the spec: section 3, Action.  The operation is the
    driver's [command], a process or a callback. *)
Record Action : Type := {
  inputs : list path;
  output : path;
  operation : command;
  workdir : option string;
  forceRun : bool;
}.

Global Instance Action_eq_dec : EqDecision Action.
Proof. solve_decision. Defined.

(** What the orchestrator sees of a file. *)
Record file : Type := { mtime : Z; digest : Z }.

Global Instance file_eq_dec : EqDecision file.
Proof. solve_decision. Defined.

(** Modelled from the spec: the fingerprint of an input is its
    modification time or a hash of its content (section 4.1). *)
Inductive scheme : Type := By_mtime | By_digest.

Definition fingerprint (sch : scheme) (f : file) : Z :=
  match sch with
  | By_mtime => mtime f
  | By_digest => digest f
  end.

(** Modelled from the spec: section 3, Run Record: per output, the inputs
    at the time of success with their fingerprints, and the success flag. *)
Record run_entry : Type := {
  rec_fingerprints : gmap path Z;
  rec_success : bool;
}.

Record state : Type := {
  fs : gmap path file;
  run_record : gmap path run_entry;
}.

Definition entry_of (sch : scheme) (files : gmap path file) (ins : list path)
    : run_entry :=
  {| rec_fingerprints :=
       list_to_map (omap (λ i, (λ f, (i, fingerprint sch f)) <$> files !! i) ins);
     rec_success := true |}.

(** Modelled from the spec: section 4.1, [isStale]. *)
Definition is_stale (sch : scheme) (st : state) (a : Action) : bool :=
  if forceRun a then true
  else
    match fs st !! output a with
    | None => true
    | Some out =>
        match run_record st !! output a with
        | None => true
        | Some e =>
            if negb (rec_success e) then true
            else if negb (bool_decide
                            (dom (rec_fingerprints e) =@{gset path} list_to_set (inputs a)))
            then true
            else if existsb (λ i, negb (bool_decide
                               (fingerprint sch <$> fs st !! i = rec_fingerprints e !! i)))
                      (inputs a)
            then true
            else existsb (λ i, match fs st !! i with
                               | Some f => (mtime out <? mtime f)%Z
                               | None => false
                               end) (inputs a)
        end
    end.

(** Modelled from the spec: section 7, the failures of a stage. *)
Inductive failure : Type :=
| StaleInputUnavailable (out missing : path)
| ActionExecutionFailed (out : path)
| DuplicateOutputRegistered (out : path).

(** Modelled from the spec: section 6, [addAction]: an output that the
    stage already holds is rejected at registration. *)
Definition addAction (a : Action) (stage : list Action) : failure + list Action :=
  if bool_decide (output a ∈ output <$> stage)
  then inl (DuplicateOutputRegistered (output a))
  else inr (stage ++ [a]).

Section Executor.

(** The world: what executing an action's operation does to the files,
    and whether it succeeds (exit code 0, or the callback returns). *)
Variable exec : Action → gmap path file → gmap path file * bool.
Variable sch : scheme.

(** Modelled from the spec: sections 4.2 and 7: an input that is missing
    is fatal; success with the output present updates the run record;
    any failure leaves it as it was. *)
Definition execute (st : state) (a : Action) : state * option failure :=
  match List.find (λ i, bool_decide (fs st !! i = None)) (inputs a) with
  | Some missing => (st, Some (StaleInputUnavailable (output a) missing))
  | None =>
      let '(files, ok) := exec a (fs st) in
      if ok && bool_decide (is_Some (files !! output a)) then
        ({| fs := files;
            run_record := <[output a := entry_of sch files (inputs a)]> (run_record st) |},
         None)
      else
        ({| fs := files; run_record := run_record st |},
         Some (ActionExecutionFailed (output a)))
  end.

(** Modelled from the spec: section 4.2, [run]: the state reached, the
    actions whose operation was executed, and the failure that stopped the
    stage, if any. *)
Fixpoint run_stage (stage : list Action) (st : state)
    : state * list Action * option failure :=
  match stage with
  | [] => (st, [], None)
  | a :: rest =>
      if is_stale sch st a then
        match execute st a with
        | (st', None) =>
            let '(st'', executed, r) := run_stage rest st' in
            (st'', a :: executed, r)
        | (st', Some (StaleInputUnavailable out missing)) =>
            (st', [], Some (StaleInputUnavailable out missing))
        | (st', Some f) => (st', [a], Some f)
        end
      else run_stage rest st
  end.

End Executor.

(** Modelled from the spec: section 4.3, the ledger: [record] appends the
    entry for [file] or overwrites it; [export] is the ordered mapping. *)
Definition record (file : string) (arguments : list string)
    (ledger : list (string * list string)) : list (string * list string) :=
  dict_set file arguments ledger.

Definition export (ledger : list (string * list string)) : list (string * list string) :=
  ledger.

(** Modelled from the spec: sections 3 and 6: the action that an
    [add_process] call of the driver registers on a runner constructed with
    [force]; the force-rebuild mode is the [force] of every registered
    action. *)
Definition action_of (force : bool) (cmd : command) (infs : list path) (outf : path)
    (chdir : option string) : Action :=
  {| inputs := infs; output := outf; operation := cmd; workdir := chdir;
     forceRun := force |}.

(** Modelled from the spec: sections 2 and 3: the orchestrator instance as
    the driver's calls shape it: its force mode, the stage being registered
    (Build Stage: the actions registered between two calls of [run]) and
    the stages already run. *)
Record runner : Type := {
  r_force : bool;
  r_stage : list Action;
  r_done : list (list Action);
}.

Definition runner_step (r : runner) (e : event) : runner :=
  match e with
  | NewCommandRunner f => {| r_force := f; r_stage := []; r_done := [] |}
  | Add_process cmd infs outf chdir =>
      {| r_force := r_force r;
         r_stage := r_stage r ++ [action_of (r_force r) cmd infs outf chdir];
         r_done := r_done r |}
  | Run => {| r_force := r_force r; r_stage := []; r_done := r_done r ++ [r_stage r] |}
  | _ => r
  end.

Definition runner_of (log : list event) : runner :=
  foldl runner_step {| r_force := false; r_stage := []; r_done := [] |} log.

(** The batches of a log, in order: the stages run, then the stage that was
    registered and never run, if it holds an action. *)
Definition batches (log : list event) : list (list Action) :=
  let r := runner_of log in
  r_done r ++ match r_stage r with [] => [] | stage => [stage] end.

(** Modelled from the spec: sections 3 and 4.3, the ledger a log leaves
    behind: one [record] per command line added, under its source file,
    taken to be the first input; callbacks are not recorded. *)
Definition ledger_of (log : list event) : list (string * list string) :=
  foldl (λ ledger e,
           match e with
           | Add_process (Argv cmd) (src :: _) _ _ =>
               record (PurePath.str src) (arg_str <$> cmd) ledger
           | _ => ledger
           end) [] log.

End Orchestrator.

(** ** A project to run the driver on

    A project [blinky] with two C++ sources of the same stem in its [cxxrtl]
    directory, a header and a Zig file; a platform without Zig; a world in
    which executing an action writes its output, newer than its inputs, and
    succeeds. *)

Module Example.

Definition P (s : string) : path := PurePath.of_string s.

Definition np : Project :=
  {| np_name := "blinky";
     np_origin := P "/home/u/blinky";
     cxxrtl_targets := Some ["cxxrtl"] |}.

Definition platform : Platform :=
  {| default_clk_frequency := 1000000; uses_zig := false |}.

Definition args : Args :=
  {| target := "cxxrtl"; compile := false; optimize := _Optimize.rtl;
     debug := false; vcd := None; force := false |}.


Definition args_none : Args :=
  {| target := "cxxrtl"; compile := false; optimize := _Optimize.none;
     debug := false; vcd := None; force := false |}.

Definition env : Env :=
  {| cwd := P "/home/u/blinky";
     listing := [ P "/home/u/blinky/cxxrtl/a.cc";
                  P "/home/u/blinky/cxxrtl/dir/a.cc";
                  P "/home/u/blinky/cxxrtl/x.h";
                  P "/home/u/blinky/cxxrtl/main.zig" ];
     yosys_data_dir := P "/usr/share/yosys";
     rtlil_text := "module blinky" |}.

(** The log of a run, for each of the three command lines. *)
Definition log : list event :=
  (main Orchestrator.ledger_of np platform args env []).1.


Definition log_none : list event :=
  (main Orchestrator.ledger_of np platform args_none env []).1.

(** A world: the execution of an action writes its output, one tick after
    the newest of its inputs, and succeeds. *)
Definition newest (files : gmap path Orchestrator.file) (ins : list path) : Z :=
  foldr (λ i m, match files !! i with
                | Some f => Z.max (Orchestrator.mtime f) m
                | None => m
                end) 0%Z ins.

Definition touch (a : Orchestrator.Action) (files : gmap path Orchestrator.file)
    : gmap path Orchestrator.file * bool :=
  (<[Orchestrator.output a :=
       {| Orchestrator.mtime := 1 + newest files (Orchestrator.inputs a);
          Orchestrator.digest := 0 |}]> files,
   true).

(** Two sources, and the actions that compile them. *)
Definition sources : gmap path Orchestrator.file :=
  <[P "a.cc" := {| Orchestrator.mtime := 10; Orchestrator.digest := 1 |}]>
    (<[P "b.cc" := {| Orchestrator.mtime := 20; Orchestrator.digest := 2 |}]> ∅).

Definition st0 : Orchestrator.state :=
  {| Orchestrator.fs := sources; Orchestrator.run_record := ∅ |}.

Definition cc (src obj : string) (forced : bool) : Orchestrator.Action :=
  {| Orchestrator.inputs := [P src];
     Orchestrator.output := P obj;
     Orchestrator.operation :=
       Argv [A_str "c++"; A_str "-c"; A_str src; A_str "-o"; A_str obj];
     Orchestrator.workdir := None;
     Orchestrator.forceRun := forced |}.

Definition stage : list Orchestrator.Action :=
  [cc "a.cc" "a.o" false; cc "b.cc" "b.o" false].

Definition stage_forced : list Orchestrator.Action := [cc "a.cc" "a.o" true].

End Example.

(** * Properties *)

(** ** Paths *)

Lemma strip_prefix_Some pre l rest :
  PurePath.strip_prefix pre l = Some rest ↔ l = pre ++ rest.
Proof.
  revert l. induction pre as [|x pre IH]; intros [|y l]; simpl.
  - split; congruence.
  - split; congruence.
  - split; [congruence | discriminate].
  - destruct (decide (x = y)) as [->|Hne].
    + rewrite IH. split; congruence.
    + split; [discriminate | congruence].
Qed.

(** [p] is located under [dir]: same root, and [dir]'s components lead to
    [p]'s. *)
Definition located_under (dir p : path) : Prop :=
  is_absolute p = is_absolute dir ∧ ∃ rest, parts p = parts dir ++ rest.

Lemma relative_to_Ok self other r :
  PurePath.relative_to self other = Ok r ↔
  is_absolute self = is_absolute other ∧ is_absolute r = false ∧
  parts self = parts other ++ parts r.
Proof.
  unfold PurePath.relative_to. destruct (decide _) as [Habs|Habs].
  - destruct (PurePath.strip_prefix _ _) as [rest|] eqn:Hs.
    + apply strip_prefix_Some in Hs. split.
      * intros [= <-]. done.
      * intros (_ & Hr & Hp). destruct r as [a ps]; simpl in *. subst a.
        rewrite Hs in Hp. by apply app_inv_head in Hp as ->.
    + split; [discriminate|]. intros (_ & _ & Hp).
      apply strip_prefix_Some in Hp. congruence.
  - split; [discriminate | tauto].
Qed.

Lemma relative_to_Raise self other e :
  PurePath.relative_to self other = Raise e ↔
  e = ValueError ∧ ¬ located_under other self.
Proof.
  unfold PurePath.relative_to, located_under. destruct (decide _) as [Habs|Habs].
  - destruct (PurePath.strip_prefix _ _) as [rest|] eqn:Hs.
    + apply strip_prefix_Some in Hs. split; [discriminate|].
      intros [_ []]. eauto.
    + split.
      * intros [= <-]. split; [done|]. intros [_ [rest Hr]].
        apply strip_prefix_Some in Hr. congruence.
      * by intros [-> _].
  - split.
    + intros [= <-]. tauto.
    + by intros [-> _].
Qed.

(** C10: [_make_absolute] never returns an absolute path.  A relative path is
    returned unchanged; an absolute path under the working directory is
    returned relative to it (the working directory's components followed by
    the result's are the path's); [AssertionError] is raised exactly for an
    absolute path that is not located under the working directory. *)
Theorem make_absolute_never_absolute (wd p : path) :
  match _make_absolute wd p with
  | Ok r =>
      is_absolute r = false ∧
      (is_absolute p = false → r = p) ∧
      (is_absolute p = true → located_under wd p ∧ parts p = parts wd ++ parts r)
  | Raise e =>
      e = AssertionError "path must be relative to cwd for builtin-yosys to access it" ∧
      is_absolute p = true ∧ ¬ located_under wd p
  end.
Proof.
  unfold _make_absolute. destruct (is_absolute p) eqn:Hp.
  - destruct (PurePath.relative_to p wd) as [r|e] eqn:Hr.
    + apply relative_to_Ok in Hr as (Habs & Hrel & Hparts).
      split; [done|]. split; [done|]. intros _. split; [|done].
      split; [congruence | eauto].
    + apply relative_to_Raise in Hr as [-> Hnot]. done.
  - split; [done|]. split; [done | discriminate].
Qed.

(** ** The argument parser *)

Lemma sorted_nil names : sorted names = [] ↔ names = [].
Proof.
  unfold sorted. split.
  - intros Hs. apply Permutation_nil_r. rewrite <-Hs.
    by rewrite merge_sort_Permutation.
  - by intros ->.
Qed.

Lemma sorted_length names : length (sorted names) = length names.
Proof. unfold sorted. by rewrite merge_sort_Permutation. Qed.

(** C9: with no CXXRTL target, [add_arguments] raises [RuntimeError] with the
    message [no cxxrtl targets defined]; otherwise it adds [-t/--target],
    required exactly when there is more than one target, with the one
    target's name as default when there is exactly one, and with the targets'
    names in sorted order as choices. *)
Theorem add_arguments_target (np : Project) (p : Parser) :
  let names := default [] (cxxrtl_targets np) in
  match add_arguments np p with
  | (_, Raise e) => names = [] ∧ e = RuntimeError "no cxxrtl targets defined"
  | (p', Ok _) =>
      names ≠ [] ∧
      ∃ t others,
        parser_arguments p' = parser_arguments p ++ t :: others ∧
        arg_flags t = ["-t"; "--target"] ∧
        (arg_required t = true ↔ 1 < length names) ∧
        (∀ name, names = [name] → arg_default t = Some name) ∧
        (1 < length names → arg_default t = None) ∧
        ∃ choices, arg_choices t = Some choices ∧
                   choices ≡ₚ names ∧ StronglySorted String.le choices
  end.
Proof.
  intros names. unfold add_arguments.
  pose proof (sorted_nil names) as Hnil.
  pose proof (sorted_length names) as Hlen.
  pose proof (merge_sort_Permutation String.le names) as Hperm.
  pose proof (StronglySorted_merge_sort String.le names) as Hsorted.
  fold (sorted names) in Hperm, Hsorted. fold names.
  destruct (sorted names) as [|first rest] eqn:Hs; simpl.
  - split; [by apply Hnil | done].
  - split; [intros Hn; apply Hnil in Hn; discriminate|].
    eexists _, _. split; [|split; [|split; [|split; [|split]]]].
    + cbn. rewrite <-!app_assoc. simpl. reflexivity.
    + done.
    + cbn. rewrite bool_decide_eq_true. simpl in Hlen.
      destruct rest; simpl in *; split; intros; try lia; done.
    + intros name Hname. rewrite Hname in Hlen, Hperm. cbn.
      destruct rest as [|? ?]; [|simpl in Hlen; lia].
      apply Permutation_singleton_r in Hperm. congruence.
    + intros Hlt. cbn. simpl in Hlen. destruct rest; [simpl in *; lia | done].
    + eexists. split; [done|]. split; [done|]. apply Hsorted.
Qed.

(** ** The log of [main] *)

Lemma bind_Ok {S A B} (m : M S A) (f : A → M S B) s s' a :
  m s = (s', Ok a) → (m ≫= f) s = f a s'.
Proof. unfold mbind, M_bind. by intros ->. Qed.

Lemma bind_Raise {S A B} (m : M S A) (f : A → M S B) s s' e :
  m s = (s', Raise e) → (m ≫= f) s = (s', Raise e).
Proof. unfold mbind, M_bind. by intros ->. Qed.

Lemma for_each_emit {A} (f : A → event) (body : A → M (list event) unit) l s :
  (∀ x, body x = emit (f x)) →
  for_each l body s = (s ++ (f <$> l), Ok tt).
Proof.
  intros Hbody. revert s. induction l as [|x l IH]; intros s; simpl.
  - by rewrite app_nil_r.
  - erewrite bind_Ok; [|by rewrite Hbody]. rewrite IH.
    by rewrite <-app_assoc.
Qed.

(** The list a comprehension builds when its body has no effect on the
    state. *)
Fixpoint traverse {A B} (g : A → result B) (l : list A) : result (list B) :=
  match l with
  | [] => Ok []
  | x :: l' =>
      match g x with
      | Raise e => Raise e
      | Ok y => match traverse g l' with
                | Raise e => Raise e
                | Ok ys => Ok (y :: ys)
                end
      end
  end.

Lemma comprehension_pure {S A B} (g : A → result B) (f : A → M S B) l s :
  (∀ x s, f x s = (s, g x)) →
  comprehension f l s = (s, traverse g l).
Proof.
  intros Hf. revert s. induction l as [|x l IH]; intros s; simpl; [done|].
  unfold mbind, M_bind. rewrite Hf. destruct (g x); [|done].
  rewrite IH. by destruct (traverse g l).
Qed.

Section Driver_log.

Variable compile_commands : list event → list (string * list string).
Variables (np : Project) (platform : Platform) (args : Args) (env : Env).

Definition is_file_event (e : event) : Prop :=
  match e with
  | Open_w _ | File_write _ _ => True
  | _ => False
  end.

(** The three paths the Yosys script needs, made relative to the working
    directory in the order [main] does it. *)
Definition script_paths : result (path * path * path) :=
  match _make_absolute (cwd env) (np_path_build np [np_name np +:+ "-cxxrtl.ys"]) with
  | Raise e => Raise e
  | Ok ys =>
      match _make_absolute (cwd env) (il_path np) with
      | Raise e => Raise e
      | Ok il =>
          match _make_absolute (cwd env) (cxxrtl_cc_path np) with
          | Raise e => Raise e
          | Ok cc => Ok (ys, il, cc)
          end
      end
  end.

Definition rtlil_event (ys : path) : event :=
  Add_process (Callable_yosys_run [A_str "-q"; A_path ys])
    [il_path np; ys] (cxxrtl_cc_path np) None.

Definition elaboration_events (ys il cc : path) : list event :=
  [ Open_w (il_path np); File_write (il_path np) (rtlil_text env);
    Open_w ys;
    File_write ys ("read_rtlil " +:+ PurePath.str il +:+ Str.nl);
    File_write ys ("write_cxxrtl -header " +:+ PurePath.str cc +:+ Str.nl);
    rtlil_event ys; Run ].

(** Either the three paths could be made relative and the first stage was
    registered and run, or an exception left file operations only. *)
Lemma elaboration_log s :
  match script_paths with
  | Ok (ys, il, cc) =>
      elaboration np env s = (s ++ elaboration_events ys il cc, Ok tt)
  | Raise e =>
      ∃ evs, elaboration np env s = (s ++ evs, Raise e) ∧ Forall is_file_event evs
  end.
Proof.
  unfold script_paths, elaboration, emit, modify, lift, mbind, M_bind. simpl.
  destruct (_make_absolute (cwd env) (np_path_build np _)) as [ys|e].
  2:{ eexists. rewrite <-!app_assoc. split; [done|]. repeat constructor. }
  destruct (_make_absolute (cwd env) (il_path np)) as [il|e].
  2:{ eexists. rewrite <-!app_assoc. split; [done|]. repeat constructor. }
  destruct (_make_absolute (cwd env) (cxxrtl_cc_path np)) as [cc|e].
  2:{ eexists. rewrite <-!app_assoc. split; [done|]. repeat constructor. }
  rewrite <-!app_assoc. done.
Qed.

Definition compile_event (x : path * (path * list path)) : event :=
  let '(cc_path, (o_path, dep_paths)) := x in
  Add_process (Argv (compile_cmd np platform args env cc_path o_path))
    ([cc_path] ++ dep_paths) o_path None.

Definition compile_events : list event := compile_event <$> cc_odep_paths np env.

Definition dump_event (before : list event) : event :=
  Json_dump (np_path_build np ["compile_commands.json"])
    (compile_commands_json np (compile_commands before)).

Lemma compilation_log s :
  compilation compile_commands np platform args env s =
    (s ++ compile_events ++ [dump_event (s ++ compile_events); Run], Ok tt).
Proof.
  unfold compilation.
  erewrite bind_Ok; [|apply (for_each_emit compile_event); by intros [? [? ?]]].
  unfold get, emit, modify, mbind, M_bind. simpl.
  rewrite <-!app_assoc. done.
Qed.

Definition link_cxx_event : event :=
  Add_process
    (Argv ([A_str "c++"] ++ (A_str <$> cxxflags platform args) ++
           (A_path <$> cc_o_paths np env) ++ [A_str "-o"; A_path (exe_o_path np)]))
    (cc_o_paths np env) (exe_o_path np) None.

Lemma link_cxx_log s :
  link_cxx np platform args env s = (s ++ [link_cxx_event; Run], Ok tt).
Proof.
  unfold link_cxx, emit, modify, mbind, M_bind. simpl.
  by rewrite <-(app_assoc s).
Qed.

(** The [-Dcxxrtl_o_path] options of the Zig build, one per object file. *)
Definition zig_o_args : result (list string) :=
  traverse (λ p, match PurePath.relative_to p (np_path np []) with
                 | Ok r => Ok ("-Dcxxrtl_o_path=../" +:+ PurePath.str r)
                 | Raise e => Raise e
                 end) (cc_o_paths np env).

Definition zig_cmd (o_args : list string) : list string :=
  [ "zig"; "build";
    "-Dclock_hz=" +:+ pretty (default_clk_frequency platform);
    "-Dyosys_data_dir=" +:+ PurePath.str (yosys_data_dir env) ] ++ o_args ++
  (if _Optimize.opt_app (optimize args) then ["-Doptimize=ReleaseFast"] else []).

Definition zig_outf : path := PurePath.of_string "cxxrtl/zig-out/bin/cxxrtl".

Definition link_zig_event (o_args : list string) : event :=
  Add_process (Argv (A_str <$> zig_cmd o_args))
    (cc_o_paths np env ++ PurePath.glob_rec (np_path np ["cxxrtl"]) ".zig" (listing env))
    zig_outf (Some "cxxrtl").

Lemma link_zig_log s :
  link_zig np platform args env s =
    match zig_o_args with
    | Ok o_args =>
        (s ++ [link_zig_event o_args; Run; Copy zig_outf (exe_o_path np)], Ok tt)
    | Raise e => (s, Raise e)
    end.
Proof.
  unfold link_zig, zig_o_args.
  set (g := λ p : path, match PurePath.relative_to p (np_path np []) with
                        | Ok r => Ok ("-Dcxxrtl_o_path=../" +:+ PurePath.str r)
                        | Raise e => Raise e
                        end).
  set (f := λ p : path, _).
  assert (Hpure : ∀ x s, f x s = (s, g x)).
  { intros x s0. unfold f, g, lift, mbind, M_bind. by destruct (PurePath.relative_to _ _). }
  pose proof (comprehension_pure g f (cc_o_paths np env) s Hpure) as Hc.
  destruct (traverse g (cc_o_paths np env)) as [o_args|e].
  - erewrite bind_Ok; [|exact Hc].
    unfold emit, modify, mbind, M_bind. simpl. rewrite <-!(app_assoc s). simpl.
    unfold link_zig_event, zig_cmd, zig_outf.
    destruct (_Optimize.opt_app _); simpl; [done | by rewrite app_nil_r].
  - by erewrite bind_Raise.
Qed.

Definition run_cmd_of_args : list arg :=
  [A_path (exe_o_path np)] ++
  (if truthy (vcd args) then [A_str "--vcd"; A_str (default "" (vcd args))] else []).

Definition run_events : list event :=
  if compile args then [] else [Run_cmd run_cmd_of_args "run"].

Lemma run_built_log s : run_built np args s = (s ++ run_events, Ok tt).
Proof.
  unfold run_built, run_events, run_cmd_of_args.
  destruct (compile args); simpl; [by rewrite app_nil_r|].
  by destruct (truthy _).
Qed.

Definition setup_events : list event :=
  [Makedirs (np_path_build np []); NewCommandRunner (force args)].

(** The log when the second stage has been registered. *)
Definition registered_events (ys il cc : path) : list event :=
  setup_events ++ elaboration_events ys il cc ++ compile_events.

(** The log when the second stage has been run. *)
Definition built_events (ys il cc : path) : list event :=
  registered_events ys il cc ++ [dump_event (registered_events ys il cc); Run].

Definition link_events : result (list event) :=
  if uses_zig platform then
    match zig_o_args with
    | Ok o_args => Ok [link_zig_event o_args; Run; Copy zig_outf (exe_o_path np)]
    | Raise e => Raise e
    end
  else Ok [link_cxx_event; Run].

(** [main], run on the empty log: an exception before anything is
    registered, an exception while the Zig link command is put together,
    or a complete run. *)
Lemma main_log :
  match script_paths with
  | Raise e =>
      ∃ evs, Forall is_file_event evs ∧
             main compile_commands np platform args env [] = (setup_events ++ evs, Raise e)
  | Ok (ys, il, cc) =>
      main compile_commands np platform args env [] =
        match link_events with
        | Raise e => (built_events ys il cc, Raise e)
        | Ok evs => (built_events ys il cc ++ evs ++ run_events, Ok tt)
        end
  end.
Proof.
  unfold main.
  erewrite bind_Ok; [|reflexivity]. erewrite bind_Ok; [|reflexivity].
  change (([] ++ [Makedirs _]) ++ [NewCommandRunner _]) with setup_events.
  pose proof (elaboration_log setup_events) as Hel.
  destruct script_paths as [[[ys il] cc]|e].
  2:{ destruct Hel as (evs & Hel & Hevs). exists evs. split; [done|].
      by erewrite bind_Raise. }
  erewrite bind_Ok; [|exact Hel].
  erewrite bind_Ok; [|apply compilation_log].
  rewrite (app_assoc _ compile_events).
  rewrite <-!(app_assoc setup_events _ compile_events).
  change (setup_events ++ _ ++ compile_events) with (registered_events ys il cc).
  change (registered_events ys il cc ++ _) with (built_events ys il cc).
  unfold link_events. destruct (uses_zig platform).
  - pose proof (link_zig_log (built_events ys il cc)) as Hli.
    destruct zig_o_args as [o_args|e].
    + erewrite bind_Ok; [|exact Hli]. rewrite run_built_log.
      by rewrite <-app_assoc.
    + by erewrite bind_Raise.
  - erewrite bind_Ok; [|apply link_cxx_log]. rewrite run_built_log.
    by rewrite <-app_assoc.
Qed.

(** When a path cannot be made relative, [main] ends where the elaboration
    does. *)
Lemma main_elaboration_Raise e :
  script_paths = Raise e →
  main compile_commands np platform args env [] =
    ((elaboration np env setup_events).1, Raise e).
Proof.
  intros He. unfold main.
  erewrite bind_Ok; [|reflexivity]. erewrite bind_Ok; [|reflexivity].
  change (([] ++ [Makedirs _]) ++ [NewCommandRunner _]) with setup_events.
  pose proof (elaboration_log setup_events) as Hel. rewrite He in Hel.
  destruct Hel as (evs & Hel & _). rewrite Hel. cbn [fst].
  by erewrite bind_Raise.
Qed.

End Driver_log.

(** ** The stages [main] registers *)

Import Orchestrator.

Lemma runner_of_app l1 l2 :
  runner_of (l1 ++ l2) = foldl runner_step (runner_of l1) l2.
Proof. apply foldl_app. Qed.

Lemma runner_step_file_events r evs :
  Forall is_file_event evs → foldl runner_step r evs = r.
Proof.
  intros Hevs. revert r. induction Hevs as [|e evs He _ IH]; intros r; [done|].
  simpl. rewrite <-(IH r) at 2. by destruct e.
Qed.

Section Driver_stages.

Variable compile_commands : list event → list (string * list string).
Variables (np : Project) (platform : Platform) (args : Args) (env : Env).

Definition rtlil_action (ys : path) : Action :=
  action_of (force args) (Callable_yosys_run [A_str "-q"; A_path ys])
    [il_path np; ys] (cxxrtl_cc_path np) None.

Definition compile_action (x : path * (path * list path)) : Action :=
  let '(cc_path, (o_path, dep_paths)) := x in
  action_of (force args) (Argv (compile_cmd np platform args env cc_path o_path))
    ([cc_path] ++ dep_paths) o_path None.

Definition compile_actions : list Action := compile_action <$> cc_odep_paths np env.

Definition link_cxx_action : Action :=
  action_of (force args)
    (Argv ([A_str "c++"] ++ (A_str <$> cxxflags platform args) ++
           (A_path <$> cc_o_paths np env) ++ [A_str "-o"; A_path (exe_o_path np)]))
    (cc_o_paths np env) (exe_o_path np) None.

Definition link_zig_action (o_args : list string) : Action :=
  action_of (force args) (Argv (A_str <$> zig_cmd platform args env o_args))
    (cc_o_paths np env ++ PurePath.glob_rec (np_path np ["cxxrtl"]) ".zig" (listing env))
    zig_outf (Some "cxxrtl").

Definition link_action : result Action :=
  if uses_zig platform then
    match zig_o_args np env with
    | Ok o_args => Ok (link_zig_action o_args)
    | Raise e => Raise e
    end
  else Ok link_cxx_action.

Lemma runner_step_compile_events r :
  foldl runner_step r (compile_events np platform args env) =
    {| r_force := r_force r;
       r_stage := r_stage r ++
         ((λ '(cc_path, (o_path, dep_paths)),
             action_of (r_force r)
               (Argv (compile_cmd np platform args env cc_path o_path))
               ([cc_path] ++ dep_paths) o_path None) <$> cc_odep_paths np env);
       r_done := r_done r |}.
Proof.
  unfold compile_events. revert r.
  induction (cc_odep_paths np env) as [|[cc [o deps]] l IH]; intros r.
  - simpl. rewrite app_nil_r. by destruct r.
  - cbn [fmap list_fmap foldl]. rewrite IH. simpl. by rewrite <-app_assoc.
Qed.

Lemma runner_of_built ys il cc :
  runner_of (built_events compile_commands np platform args env ys il cc) =
    {| r_force := force args; r_stage := [];
       r_done := [[rtlil_action ys]; compile_actions] |}.
Proof.
  unfold built_events, registered_events, runner_of.
  rewrite !foldl_app, runner_step_compile_events. reflexivity.
Qed.

(** The batches of a run of [main]: none when elaboration raises, the
    first two when the Zig link command cannot be put together, else
    three: the RTLIL conversion, the compilations, the link. *)
Lemma main_batches :
  batches (main compile_commands np platform args env []).1 =
    match script_paths np env with
    | Raise _ => []
    | Ok (ys, _, _) =>
        match link_action with
        | Raise _ => [[rtlil_action ys]; compile_actions]
        | Ok link => [[rtlil_action ys]; compile_actions; [link]]
        end
    end.
Proof.
  pose proof (main_log compile_commands np platform args env) as Hlog.
  destruct (script_paths np env) as [[[ys il] cc]|e].
  - rewrite Hlog. unfold link_events, link_action.
    destruct (uses_zig platform).
    + destruct (zig_o_args np env) as [o_args|e]; cbn [fst].
      * unfold batches. rewrite !runner_of_app, runner_of_built.
        unfold run_events. by destruct (compile args).
      * unfold batches. by rewrite runner_of_built.
    + cbn [fst]. unfold batches. rewrite !runner_of_app, runner_of_built.
      unfold run_events. by destruct (compile args).
  - destruct Hlog as (evs & Hevs & ->). cbn [fst].
    unfold batches. rewrite runner_of_app, runner_step_file_events; done.
Qed.

End Driver_stages.

(** The actions of the [n]th batch of a log, counted from 0. *)
Definition stage_nth (n : nat) (log : list event) : list Action :=
  default [] (batches log !! n).

(** [args] with another value for [--debug], for [--optimize]. *)
Definition set_debug (b : bool) (args : Args) : Args :=
  {| target := target args; compile := compile args; optimize := optimize args;
     debug := b; vcd := vcd args; force := force args |}.

Definition set_optimize (o : _Optimize.t) (args : Args) : Args :=
  {| target := target args; compile := compile args; optimize := o;
     debug := debug args; vcd := vcd args; force := force args |}.

Section Driver_claims.

Variable compile_commands : list event → list (string * list string).
Variables (np : Project) (platform : Platform) (env : Env).

Local Abbreviation log_of args := (main compile_commands np platform args env []).1.

Lemma rtlil_stage args :
  stage_nth 0 (log_of args) =
    match script_paths np env with
    | Ok (ys, _, _) => [rtlil_action np args ys]
    | Raise _ => []
    end.
Proof.
  unfold stage_nth. rewrite main_batches.
  destruct (script_paths np env) as [[[ys il] cc]|e]; [|done].
  by destruct (link_action np platform args env).
Qed.

Lemma compile_stage args :
  stage_nth 1 (log_of args) =
    match script_paths np env with
    | Ok _ => compile_actions np platform args env
    | Raise _ => []
    end.
Proof.
  unfold stage_nth. rewrite main_batches.
  destruct (script_paths np env) as [[[ys il] cc]|e]; [|done].
  by destruct (link_action np platform args env).
Qed.

Lemma link_stage args :
  stage_nth 2 (log_of args) =
    match script_paths np env, link_action np platform args env with
    | Ok _, Ok link => [link]
    | _, _ => []
    end.
Proof.
  unfold stage_nth. rewrite main_batches.
  destruct (script_paths np env) as [[[ys il] cc]|e]; [|done].
  by destruct (link_action np platform args env).
Qed.

Lemma later_stage args n : 3 ≤ n → stage_nth n (log_of args) = [].
Proof.
  intros Hn. unfold stage_nth. rewrite main_batches.
  destruct (script_paths np env) as [[[ys il] cc]|e].
  - destruct (link_action np platform args env);
      do 3 (destruct n as [|n]; [lia|]); done.
  - done.
Qed.

(** The command line of a compilation, around the place of [--debug]'s
    option. *)
Definition compile_cmd_pre (args : Args) : list arg :=
  (if uses_zig platform then [A_str "zig"] else []) ++
  [A_str "c++"] ++
  (A_str <$> CXXFLAGS ++
             ["-DCLOCK_HZ=" +:+ pretty (default_clk_frequency platform)] ++
             (if _Optimize.opt_rtl (optimize args) then ["-O3"] else ["-O0"])).

Definition compile_cmd_post (cc_path o_path : path) : list arg :=
  (A_str <$> (if uses_zig platform
              then ["-DCXXRTL_INCLUDE_CAPI_IMPL"; "-DCXXRTL_INCLUDE_VCD_CAPI_IMPL"]
              else [])) ++
  [ A_str ("-I" +:+ PurePath.str (np_path np ["build"]));
    A_str ("-I" +:+ PurePath.str
             (PurePath.joinpath (yosys_data_dir env)
                ["include"; "backends"; "cxxrtl"; "runtime"]));
    A_str "-c"; A_path cc_path; A_str "-o"; A_path o_path ].

Lemma compile_cmd_split args cc_path o_path :
  compile_cmd np platform args env cc_path o_path =
    compile_cmd_pre args ++ (if debug args then [A_str "-g"] else []) ++
    compile_cmd_post cc_path o_path.
Proof.
  unfold compile_cmd, compile_cmd_pre, compile_cmd_post, cxxflags.
  destruct (uses_zig platform), (_Optimize.opt_rtl _), (debug args); reflexivity.
Qed.

Lemma compile_cmd_pre_g args :
  count_occ arg_eq_dec (compile_cmd_pre args) (A_str "-g") = 1.
Proof.
  unfold compile_cmd_pre.
  destruct (uses_zig platform), (_Optimize.opt_rtl _); lazy; reflexivity.
Qed.

Lemma compile_cmd_post_g cc_path o_path :
  count_occ arg_eq_dec (compile_cmd_post cc_path o_path) (A_str "-g") = 0.
Proof.
  unfold compile_cmd_post.
  destruct (uses_zig platform); lazy; reflexivity.
Qed.

(** C8: the command line of every compile action holds [-g], with or
    without [--debug]: once without it, twice with it, and the command line
    with [--debug] is the one without it (same action otherwise, at the
    same place of the stage) with one more [-g]. *)
Theorem compile_argv_has_g (args : Args) (i : nat) (a : Action) :
  stage_nth 1 (log_of args) !! i = Some a →
  ∃ argv pre post a0,
    operation a = Argv argv ∧
    A_str "-g" ∈ argv ∧
    count_occ arg_eq_dec argv (A_str "-g") = (if debug args then 2 else 1) ∧
    argv = pre ++ (if debug args then [A_str "-g"] else []) ++ post ∧
    stage_nth 1 (log_of (set_debug false args)) !! i = Some a0 ∧
    operation a0 = Argv (pre ++ post) ∧
    inputs a0 = inputs a ∧ output a0 = output a ∧
    workdir a0 = workdir a ∧ forceRun a0 = forceRun a.
Proof.
  rewrite !compile_stage.
  destruct (script_paths np env) as [[[ys il] cc]|e]; [|done].
  unfold compile_actions. rewrite !list_lookup_fmap.
  destruct (cc_odep_paths np env !! i) as [[cc_path [o_path deps]]|]; [|done].
  intros [= <-]. simpl.
  exists (compile_cmd np platform args env cc_path o_path),
    (compile_cmd_pre args), (compile_cmd_post cc_path o_path).
  eexists. split; [done|].
  assert (Hcount : count_occ arg_eq_dec (compile_cmd np platform args env cc_path o_path)
                     (A_str "-g") = (if debug args then 2 else 1)).
  { rewrite compile_cmd_split, !count_occ_app, compile_cmd_pre_g, compile_cmd_post_g.
    by destruct (debug args). }
  split.
  { apply list_elem_of_In, (count_occ_In arg_eq_dec). rewrite Hcount.
    destruct (debug args); lia. }
  split; [done|]. split; [apply compile_cmd_split|].
  split; [done|]. split; [|done].
  by rewrite (compile_cmd_split (set_debug false args)).
Qed.

Definition is_run_cmd (e : event) : Prop :=
  match e with
  | Run_cmd _ _ => True
  | _ => False
  end.

Lemma no_run_cmd_before_link args ys il cc evs :
  link_events np platform args env = Ok evs →
  Forall (λ e, ¬ is_run_cmd e)
    (built_events compile_commands np platform args env ys il cc ++ evs).
Proof.
  intros Hevs. unfold built_events, registered_events, compile_events.
  rewrite !Forall_app. repeat split.
  - repeat constructor; simpl; tauto.
  - repeat constructor; simpl; tauto.
  - apply Forall_fmap, Forall_forall. intros [? [? ?]] _. simpl. tauto.
  - repeat constructor; simpl; tauto.
  - unfold link_events in Hevs. destruct (uses_zig platform).
    + destruct (zig_o_args np env); simplify_eq.
      repeat constructor; simpl; tauto.
    + simplify_eq. repeat constructor; simpl; tauto.
Qed.

(** C5: in a run of [main] that returns, the built executable is run
    through [run_cmd], with step [run], exactly when [--compile] is not
    given.  It is then the last call of the run, after the three build
    stages, and the only one of its kind; with [--compile] there is none. *)
Theorem direct_run_iff_not_compile (args : Args) (log : list event) :
  main compile_commands np platform args env [] = (log, Ok tt) →
  ((∃ cmd, Run_cmd cmd "run" ∈ log) ↔ compile args = false) ∧
  (compile args = false →
     ∃ before cmd rest,
       log = before ++ [Run_cmd (A_path (exe_o_path np) :: rest) "run"] ∧
       cmd = A_path (exe_o_path np) :: rest ∧
       Forall (λ e, ¬ is_run_cmd e) before ∧
       length (batches before) = 3) ∧
  (compile args = true → Forall (λ e, ¬ is_run_cmd e) log).
Proof.
  intros Hmain.
  pose proof (main_log compile_commands np platform args env) as Hlog.
  destruct (script_paths np env) as [[[ys il] cc]|e] eqn:Hsp.
  2:{ destruct Hlog as (evs & _ & Hlog). rewrite Hlog in Hmain. discriminate. }
  destruct (link_events np platform args env) as [evs|e] eqn:Hevs;
    [|rewrite Hlog in Hmain; discriminate].
  assert (log = (built_events compile_commands np platform args env ys il cc ++ evs)
                ++ run_events np args) as ->.
  { rewrite Hlog in Hmain. rewrite <-app_assoc. congruence. }
  clear Hmain Hlog.
  pose proof (no_run_cmd_before_link args ys il cc evs Hevs) as Hno.
  assert (Hbatches :
            length (batches (built_events compile_commands np platform args env ys il cc
                             ++ evs)) = 3).
  { unfold batches. rewrite runner_of_app, runner_of_built.
    unfold link_events in Hevs. destruct (uses_zig platform).
    - destruct (zig_o_args np env); simplify_eq. reflexivity.
    - simplify_eq. reflexivity. }
  set (before := built_events compile_commands np platform args env ys il cc ++ evs) in *.
  unfold run_events, run_cmd_of_args.
  destruct (compile args).
  - rewrite app_nil_r. split; [|split; [discriminate | done]].
    split; [|discriminate]. intros [cmd Hin].
    rewrite Forall_forall in Hno. by apply Hno in Hin.
  - split; [|split; [|discriminate]].
    + split; [done|]. intros _. eexists. apply elem_of_app. right. left.
    + intros _. eexists before, _, _. split; [reflexivity|]. done.
Qed.

(** [j] is the compilation database of the recorded invocations [items]
    under the working root [root]: an array with one object per invocation,
    in order, each with the keys [directory], [file] and [arguments], in this
    order and no other, the arguments as an array of strings. *)
Definition is_compilation_database (root : string)
    (items : list (string * list string)) (j : json) : Prop :=
  ∃ elems,
    j = JArray elems ∧
    length elems = length items ∧
    ∀ i file arguments,
      items !! i = Some (file, arguments) →
      ∃ members,
        elems !! i = Some (JObject members) ∧
        members.*1 = ["directory"; "file"; "arguments"] ∧
        members !! 0 = Some ("directory", JString root) ∧
        members !! 1 = Some ("file", JString file) ∧
        members !! 2 = Some ("arguments", JArray (JString <$> arguments)).

Lemma compile_commands_json_database items :
  is_compilation_database (PurePath.str (np_path np [])) items
    (compile_commands_json np items).
Proof.
  unfold compile_commands_json. eexists. split; [reflexivity|].
  split; [by rewrite length_fmap|].
  intros i file arguments Hi. eexists.
  rewrite list_lookup_fmap, Hi. simpl. done.
Qed.

(** C2: whatever [main] dumps as JSON is dumped to
    [build/compile_commands.json] and is the compilation database of the
    invocations the runner holds at that point ([compile_commands] of the
    calls made before): one object per invocation, in insertion order, with
    exactly the keys [directory] (the project path), [file] and [arguments]
    (the recorded argv, as an array of strings in order). *)
Theorem compilation_database_export (args : Args) (p : path) (j : json) :
  Json_dump p j ∈ log_of args →
  ∃ before after,
    log_of args = before ++ Json_dump p j :: after ∧
    p = np_path_build np ["compile_commands.json"] ∧
    j = compile_commands_json np (compile_commands before) ∧
    is_compilation_database (PurePath.str (np_path np []))
      (compile_commands before) j.
Proof.
  pose proof (main_log compile_commands np platform args env) as Hlog.
  destruct (script_paths np env) as [[[ys il] cc]|e].
  2:{ destruct Hlog as (evs & Hevs & ->). cbn [fst]. intros Hin.
      apply elem_of_app in Hin as [Hin|Hin].
      - repeat (apply elem_of_cons in Hin as [Hin|Hin]; [discriminate|]).
        by apply elem_of_nil in Hin.
      - rewrite Forall_forall in Hevs. by apply Hevs in Hin. }
  set (reg := registered_events np platform args env ys il cc).
  assert (Hnot_reg : Json_dump p j ∉ reg).
  { unfold reg, registered_events, compile_events. rewrite !not_elem_of_app.
    split; [|split].
    - intros Hin. repeat (apply elem_of_cons in Hin as [Hin|Hin]; [discriminate|]).
      by apply elem_of_nil in Hin.
    - intros Hin. repeat (apply elem_of_cons in Hin as [Hin|Hin]; [discriminate|]).
      by apply elem_of_nil in Hin.
    - intros Hin. apply list_elem_of_fmap in Hin as ([? [? ?]] & Hin & _).
      discriminate. }
  assert (Hlink : ∀ evs, link_events np platform args env = Ok evs →
                         Json_dump p j ∉ evs ++ run_events np args).
  { intros evs Hevs Hin. unfold link_events in Hevs.
    apply elem_of_app in Hin as [Hin|Hin].
    - destruct (uses_zig platform); [destruct (zig_o_args np env)|]; simplify_eq;
        repeat (apply elem_of_cons in Hin as [Hin|Hin]; [discriminate|]);
        by apply elem_of_nil in Hin.
    - unfold run_events in Hin. destruct (compile args).
      + by apply elem_of_nil in Hin.
      + apply list_elem_of_singleton in Hin. discriminate. }
  assert (Hbuilt : ∀ tail, Json_dump p j ∉ tail →
            Json_dump p j ∈ built_events compile_commands np platform args env ys il cc
                            ++ tail →
            ∃ after,
              built_events compile_commands np platform args env ys il cc ++ tail =
                reg ++ Json_dump p j :: after ∧
              p = np_path_build np ["compile_commands.json"] ∧
              j = compile_commands_json np (compile_commands reg)).
  { intros tail Htail Hin. unfold built_events in *. fold reg in Hin |- *.
    rewrite <-app_assoc in Hin |- *.
    apply elem_of_app in Hin as [Hin|Hin]; [done|].
    apply elem_of_app in Hin as [Hin|Hin]; [|done].
    apply elem_of_cons in Hin as [Hin|Hin].
    - unfold dump_event in *. injection Hin as -> ->.
      eexists. split; [reflexivity|]. done.
    - apply list_elem_of_singleton in Hin. discriminate. }
  rewrite Hlog. intros Hin.
  destruct (link_events np platform args env) as [evs|e]; cbn [fst] in *.
  - destruct (Hbuilt _ (Hlink evs eq_refl) Hin) as (after & Heq & -> & ->).
    exists reg, after. split; [done|]. split; [done|]. split; [done|].
    apply compile_commands_json_database.
  - rewrite <-(app_nil_r (built_events _ _ _ _ _ _ _ _)) in Hin |- *.
    destruct (Hbuilt [] (not_elem_of_nil _) Hin) as (after & Heq & -> & ->).
    exists reg, after. split; [done|]. split; [done|]. split; [done|].
    apply compile_commands_json_database.
Qed.

Lemma opt_rtl_true o :
  _Optimize.opt_rtl o = true ↔ o = _Optimize.rtl ∨ o = _Optimize.both.
Proof. destruct o; vm_compute; intuition discriminate. Qed.

Lemma opt_app_true o :
  _Optimize.opt_app o = true ↔ o = _Optimize.app ∨ o = _Optimize.both.
Proof. destruct o; vm_compute; intuition discriminate. Qed.

Lemma count_occ_elem_of (l : list arg) (x : arg) (n : nat) :
  count_occ arg_eq_dec l x = n → (x ∈ l ↔ 0 < n).
Proof. intros <-. rewrite list_elem_of_In. apply count_occ_In. Qed.

Lemma count_occ_paths (l : list path) (s : string) :
  count_occ arg_eq_dec (A_path <$> l) (A_str s) = 0.
Proof.
  induction l as [|p l IH]; [done|]. simpl.
  destruct (arg_eq_dec (A_path p) (A_str s)); [discriminate | done].
Qed.

Lemma compile_cmd_optimize args cc_path o_path :
  let argv := compile_cmd np platform args env cc_path o_path in
  count_occ arg_eq_dec argv (A_str "-O3") =
    (if _Optimize.opt_rtl (optimize args) then 1 else 0) ∧
  count_occ arg_eq_dec argv (A_str "-O0") =
    (if _Optimize.opt_rtl (optimize args) then 0 else 1) ∧
  count_occ arg_eq_dec argv (A_str "-Doptimize=ReleaseFast") = 0.
Proof.
  unfold compile_cmd, cxxflags.
  destruct (uses_zig platform), (_Optimize.opt_rtl _), (debug args); lazy; done.
Qed.

Lemma link_cxx_optimize args :
  let argv := [A_str "c++"] ++ (A_str <$> cxxflags platform args) ++
              (A_path <$> cc_o_paths np env) ++ [A_str "-o"; A_path (exe_o_path np)] in
  count_occ arg_eq_dec argv (A_str "-O3") =
    (if _Optimize.opt_rtl (optimize args) then 1 else 0) ∧
  count_occ arg_eq_dec argv (A_str "-O0") =
    (if _Optimize.opt_rtl (optimize args) then 0 else 1) ∧
  count_occ arg_eq_dec argv (A_str "-Doptimize=ReleaseFast") = 0.
Proof.
  intros argv. unfold argv. rewrite !count_occ_app, !count_occ_paths.
  unfold cxxflags.
  destruct (uses_zig platform), (_Optimize.opt_rtl _), (debug args); lazy; done.
Qed.

Definition is_o_path_option (o : string) : Prop :=
  ∃ r, o = "-Dcxxrtl_o_path=../" +:+ r.

Lemma zig_o_args_options o_args :
  zig_o_args np env = Ok o_args → Forall is_o_path_option o_args.
Proof.
  unfold zig_o_args. revert o_args.
  induction (cc_o_paths np env) as [|p l IH]; intros o_args; simpl.
  - intros [= <-]. constructor.
  - destruct (PurePath.relative_to p _) as [r|]; [|discriminate].
    destruct (traverse _ l) as [ys|]; [|discriminate].
    intros [= <-]. constructor; [by eexists | by apply IH].
Qed.

Lemma count_occ_o_path_options o_args (s : string) :
  Forall is_o_path_option o_args →
  (∀ r, s ≠ "-Dcxxrtl_o_path=../" +:+ r) →
  count_occ arg_eq_dec (A_str <$> o_args) (A_str s) = 0.
Proof.
  intros Hall Hs. induction Hall as [|o l [r ->] _ IH]; [done|].
  cbn [fmap list_fmap count_occ].
  destruct (arg_eq_dec _ _) as [[= Heq]|_]; [|done].
  by specialize (Hs r).
Qed.

Lemma link_zig_optimize args o_args :
  Forall is_o_path_option o_args →
  let argv := A_str <$> zig_cmd platform args env o_args in
  count_occ arg_eq_dec argv (A_str "-Doptimize=ReleaseFast") =
    (if _Optimize.opt_app (optimize args) then 1 else 0) ∧
  count_occ arg_eq_dec argv (A_str "-O3") = 0 ∧
  count_occ arg_eq_dec argv (A_str "-O0") = 0.
Proof.
  intros Hall argv. unfold argv, zig_cmd.
  rewrite !fmap_app, !count_occ_app.
  rewrite !(count_occ_o_path_options o_args) by (done || (intros r; lazy; discriminate)).
  destruct (_Optimize.opt_app _); lazy; done.
Qed.

(** What the orchestrator reads of an action besides its operation. *)
Definition shape (a : Action) : list path * path * option string * bool :=
  (inputs a, output a, workdir a, forceRun a).

Definition shapes (bs : list (list Action))
    : list (list (list path * path * option string * bool)) :=
  (λ b : list Action, shape <$> b) <$> bs.

(** The validity oracle reads of an action its shape only: the command
    line is not looked at. *)
Lemma is_stale_shape sch (st : state) (a b : Action) :
  shape a = shape b → is_stale sch st a = is_stale sch st b.
Proof.
  unfold shape. intros [= Hin Hout _ Hforce]. unfold is_stale.
  by rewrite Hin, Hout, Hforce.
Qed.

Lemma shapes_stage_nth (log log' : list event) (k i : nat) (a a' : Action) :
  shapes (batches log') = shapes (batches log) →
  stage_nth k log' !! i = Some a' → stage_nth k log !! i = Some a →
  shape a' = shape a.
Proof.
  unfold shapes, stage_nth. intros Heq Ha' Ha.
  apply (f_equal (λ l, l !! k)) in Heq. rewrite !list_lookup_fmap in Heq.
  destruct (batches log' !! k) as [b'|]; [|by cbn in Ha'].
  destruct (batches log !! k) as [b|]; [|by cbn in Ha].
  simpl in Ha', Ha, Heq. injection Heq as Heq.
  apply (f_equal (λ l, l !! i)) in Heq. rewrite !list_lookup_fmap in Heq.
  rewrite Ha', Ha in Heq. exact (inj Some _ _ Heq).
Qed.

(** A call of the driver with what depends on the command lines of the
    registered actions left out: the command line given to [add_process],
    and the compilation database, which records the command lines.  Every
    other call, and every other argument of these two, is kept. *)
Definition without_argv (e : event) : event :=
  match e with
  | Add_process (Argv _) infs outf chdir => Add_process (Argv []) infs outf chdir
  | Json_dump p _ => Json_dump p (JArray [])
  | _ => e
  end.

(** Two command lines that agree on [--force], [--compile] and [--vcd] give
    the same result and the same calls, the command lines of the registered
    actions apart. *)
Lemma main_without_argv (args args' : Args) :
  force args' = force args → compile args' = compile args → vcd args' = vcd args →
  (main compile_commands np platform args' env []).2 =
    (main compile_commands np platform args env []).2 ∧
  without_argv <$> log_of args' = without_argv <$> log_of args.
Proof.
  intros Hforce Hcompile Hvcd.
  assert (Hsetup : setup_events np args' = setup_events np args).
  { unfold setup_events. by rewrite Hforce. }
  destruct (script_paths np env) as [[[ys il] cc]|e] eqn:Hsp.
  2:{ rewrite !(main_elaboration_Raise _ _ _ _ _ e Hsp), Hsetup. done. }
  pose proof (main_log compile_commands np platform args env) as Hlog.
  pose proof (main_log compile_commands np platform args' env) as Hlog'.
  rewrite Hsp in Hlog, Hlog'. rewrite Hlog, Hlog'. clear Hlog Hlog'.
  assert (Hrun : run_events np args' = run_events np args).
  { unfold run_events, run_cmd_of_args. by rewrite Hcompile, Hvcd. }
  assert (Hbuilt :
    without_argv <$> built_events compile_commands np platform args' env ys il cc =
    without_argv <$> built_events compile_commands np platform args env ys il cc).
  { unfold built_events, registered_events, compile_events.
    rewrite !fmap_app, Hsetup. do 2 f_equal. f_equal.
    rewrite <-!list_fmap_compose. apply list_fmap_ext. by intros _ [? [? ?]] _. }
  unfold link_events. destruct (uses_zig platform).
  - destruct (zig_o_args np env) as [o_args|e]; cbn [fst snd]; [|done].
    split; [done|]. rewrite !fmap_app, Hbuilt, Hrun. done.
  - cbn [fst snd]. split; [done|]. rewrite !fmap_app, Hbuilt, Hrun. done.
Qed.

(** C6, amended: [--optimize] changes only command lines.  Every compile
    command holds [-O3] exactly when the option is [rtl] or [both], and
    [-O0] otherwise; the Zig link command holds [-Doptimize=ReleaseFast]
    exactly when it is [app] or [both]; the C++ link command of a platform
    without Zig is made of the same flags as the compile commands, so it
    holds [-O3] or [-O0] as they do.  Nothing else depends on the option:
    [main] returns or raises as it does with any other value, and makes the
    same calls in the same order (the directories, the files written, the
    registrations and the runs, the copy, the command line that runs the
    executable), the command lines of the registered actions and the
    compilation database that records them apart; the first stage is the
    same; no action's inputs, output, working directory or force flag
    changes; and the validity oracle, which reads no command line, judges
    every action as it judges its counterpart. *)
Theorem optimize_changes_argv_only (args : Args) :
  (∀ a, a ∈ stage_nth 1 (log_of args) →
     ∃ argv, operation a = Argv argv ∧
       (A_str "-O3" ∈ argv ↔
          optimize args = _Optimize.rtl ∨ optimize args = _Optimize.both) ∧
       (A_str "-O0" ∈ argv ↔
          ¬ (optimize args = _Optimize.rtl ∨ optimize args = _Optimize.both)) ∧
       A_str "-Doptimize=ReleaseFast" ∉ argv) ∧
  (∀ a, a ∈ stage_nth 2 (log_of args) →
     ∃ argv, operation a = Argv argv ∧
       (if uses_zig platform then
          (A_str "-Doptimize=ReleaseFast" ∈ argv ↔
             optimize args = _Optimize.app ∨ optimize args = _Optimize.both) ∧
          (A_str "-O3" ∉ argv) ∧ (A_str "-O0" ∉ argv)
        else
          (A_str "-O3" ∈ argv ↔
             optimize args = _Optimize.rtl ∨ optimize args = _Optimize.both) ∧
          (A_str "-O0" ∈ argv ↔
             ¬ (optimize args = _Optimize.rtl ∨ optimize args = _Optimize.both)) ∧
          A_str "-Doptimize=ReleaseFast" ∉ argv)) ∧
  (∀ o, stage_nth 0 (log_of (set_optimize o args)) = stage_nth 0 (log_of args) ∧
        shapes (batches (log_of (set_optimize o args))) =
        shapes (batches (log_of args))) ∧
  (∀ o, (main compile_commands np platform (set_optimize o args) env []).2 =
          (main compile_commands np platform args env []).2 ∧
        without_argv <$> log_of (set_optimize o args) =
          without_argv <$> log_of args) ∧
  (∀ o sch st k i a' a,
     stage_nth k (log_of (set_optimize o args)) !! i = Some a' →
     stage_nth k (log_of args) !! i = Some a →
     is_stale sch st a' = is_stale sch st a).
Proof.
  assert (Hshapes : ∀ o,
    stage_nth 0 (log_of (set_optimize o args)) = stage_nth 0 (log_of args) ∧
    shapes (batches (log_of (set_optimize o args))) = shapes (batches (log_of args))).
  { intros o. rewrite !rtlil_stage, !main_batches.
    destruct (script_paths np env) as [[[ys il] cc]|e]; [|done].
    split; [done|]. unfold link_action.
    assert (Hcompile : shape <$> compile_actions np platform (set_optimize o args) env =
                       shape <$> compile_actions np platform args env).
    { unfold compile_actions. rewrite <-!list_fmap_compose.
      apply list_fmap_ext. by intros _ [? [? ?]] _. }
    unfold shapes.
    destruct (uses_zig platform); [destruct (zig_o_args np env)|];
      cbn [fmap list_fmap]; by rewrite Hcompile. }
  split; [|split; [|split; [exact Hshapes|split]]].
  - intros a. rewrite compile_stage.
    destruct (script_paths np env) as [[[ys il] cc]|e]; [|by intros ?%elem_of_nil].
    intros ([cc_path [o_path deps]] & -> & _)%list_elem_of_fmap.
    eexists. split; [reflexivity|].
    destruct (compile_cmd_optimize args cc_path o_path) as (H3 & H0 & Hfast).
    rewrite (count_occ_elem_of _ _ _ H3), (count_occ_elem_of _ _ _ H0),
      (count_occ_elem_of _ _ _ Hfast), <-opt_rtl_true.
    destruct (_Optimize.opt_rtl _); intuition (try lia; try congruence).
  - intros a. rewrite link_stage.
    destruct (script_paths np env) as [[[ys il] cc]|e]; [|by intros ?%elem_of_nil].
    unfold link_action. destruct (uses_zig platform).
    + pose proof (zig_o_args_options) as Hopt.
      destruct (zig_o_args np env) as [o_args|e]; [|by intros ?%elem_of_nil].
      intros ->%list_elem_of_singleton. eexists. split; [reflexivity|].
      destruct (link_zig_optimize args o_args (Hopt _ eq_refl)) as (Hfast & H3 & H0).
      rewrite (count_occ_elem_of _ _ _ H3), (count_occ_elem_of _ _ _ H0),
        (count_occ_elem_of _ _ _ Hfast), <-opt_app_true.
      destruct (_Optimize.opt_app _); intuition (try lia; try congruence).
    + intros ->%list_elem_of_singleton. eexists. split; [reflexivity|].
      destruct (link_cxx_optimize args) as (H3 & H0 & Hfast).
      rewrite (count_occ_elem_of _ _ _ H3), (count_occ_elem_of _ _ _ H0),
        (count_occ_elem_of _ _ _ Hfast), <-opt_rtl_true.
      destruct (_Optimize.opt_rtl _); intuition (try lia; try congruence).
  - intros o. by apply main_without_argv.
  - intros o sch st k i a' a Ha' Ha. apply is_stale_shape.
    exact (shapes_stage_nth _ _ k i a a' (proj2 (Hshapes o)) Ha' Ha).
Qed.

(** *** Names of the paths the driver builds *)

Lemma append_nil_l (s : string) : "" +:+ s = s.
Proof. reflexivity. Qed.

Lemma append_cons (a : ascii) (s t : string) : String a s +:+ t = String a (s +:+ t).
Proof. reflexivity. Qed.

Lemma ends_with_unfold (suf s : string) :
  Str.ends_with suf s =
    String.eqb s suf || match s with
                        | "" => false
                        | String _ s' => Str.ends_with suf s'
                        end.
Proof. by destruct s. Qed.

Lemma ends_with_app (X suf : string) : Str.ends_with suf (X +:+ suf) = true.
Proof.
  induction X as [|a X IH].
  - rewrite append_nil_l, ends_with_unfold. by rewrite String.eqb_refl.
  - rewrite append_cons. simpl. rewrite IH. by rewrite orb_true_r.
Qed.

Lemma ends_with_inv (suf s : string) :
  Str.ends_with suf s = true → ∃ X, s = X +:+ suf.
Proof.
  induction s as [|a s IH]; rewrite ends_with_unfold.
  - rewrite orb_false_r. intros <-%String.eqb_eq. by exists "".
  - intros [<-%String.eqb_eq|Hs]%orb_true_iff.
    + by exists "".
    + destruct (IH Hs) as [X ->]. by exists (String a X).
Qed.

Fixpoint last_char (s : string) : option ascii :=
  match s with
  | "" => None
  | String a s' => match last_char s' with
                   | Some c => Some c
                   | None => Some a
                   end
  end.

Lemma last_char_app (X suf : string) (c : ascii) :
  last_char suf = Some c → last_char (X +:+ suf) = Some c.
Proof.
  intros Hc. induction X as [|a X IH]; [done|].
  rewrite append_cons. simpl. by rewrite IH.
Qed.

Lemma ends_with_last_char (suf s : string) (c : ascii) :
  Str.ends_with suf s = true → last_char suf = Some c → last_char s = Some c.
Proof. intros [X ->]%ends_with_inv. apply last_char_app. Qed.

Lemma split_app_suffix (sep : ascii) (t suf : string) :
  Str.split sep suf = [suf] →
  ∃ init X, Str.split sep (t +:+ suf) = init ++ [X +:+ suf].
Proof.
  intros Hsuf. induction t as [|a t (init & X & IH)].
  - exists [], "". by rewrite !append_nil_l.
  - rewrite append_cons. simpl. rewrite IH. destruct (Ascii.eqb a sep).
    + by exists ("" :: init), X.
    + destruct init as [|piece init]; simpl.
      * by exists [], (String a X).
      * by exists (String a piece :: init), X.
Qed.

(** A suffix that can end a file name: no [/] in it, and it does not end
    with a dot. *)
Definition name_suffix (suf : string) : Prop :=
  Str.split "/" suf = [suf] ∧ ∃ c, last_char suf = Some c ∧ c ≠ "."%char.

Lemma components_suffix (t suf : string) :
  name_suffix suf →
  ∃ init X, PurePath.components (t +:+ suf) = init ++ [X +:+ suf].
Proof.
  intros [Hsplit (c & Hc & Hdot)]. unfold PurePath.components.
  destruct (split_app_suffix "/" t suf Hsplit) as (init & X & ->).
  rewrite filter_app. eexists _, X. f_equal.
  rewrite filter_cons_True; [done|].
  pose proof (last_char_app X suf c Hc) as Hlast.
  split; intros Heq; rewrite Heq in Hlast; simpl in Hlast; congruence.
Qed.

(** [p]'s name ends with [suf]. *)
Definition named (suf : string) (p : path) : Prop :=
  Str.ends_with suf (PurePath.name p) = true.

Lemma named_div (self : path) (t suf : string) :
  name_suffix suf → named suf (PurePath.div self (t +:+ suf)).
Proof.
  intros Hsuf. destruct (components_suffix t suf Hsuf) as (init & X & Hc).
  unfold named, PurePath.div, PurePath.of_string, PurePath.name.
  destruct (PurePath.seg_is_absolute _); simpl; rewrite Hc.
  - rewrite List.last_last. apply ends_with_app.
  - rewrite app_assoc, List.last_last. apply ends_with_app.
Qed.

Lemma named_build (t suf : string) :
  name_suffix suf → named suf (np_path_build np [t +:+ suf]).
Proof. intros Hsuf. by apply named_div. Qed.

Lemma name_suffix_il : name_suffix ".il".
Proof. split; [done|]. by exists "l"%char. Qed.

Lemma name_suffix_cc : name_suffix ".cc".
Proof. split; [done|]. by exists "c"%char. Qed.

Lemma name_suffix_o : name_suffix ".o".
Proof. split; [done|]. by exists "o"%char. Qed.

Lemma name_suffix_ys : name_suffix "-cxxrtl.ys".
Proof. split; [done|]. by exists "s"%char. Qed.

Lemma name_exe_o_path : PurePath.name (exe_o_path np) = "cxxrtl".
Proof.
  unfold exe_o_path, np_path_build, np_path, PurePath.joinpath, PurePath.name.
  simpl. change (PurePath.components "cxxrtl") with ["cxxrtl"].
  apply List.last_last.
Qed.

Lemma name_zig_outf : PurePath.name zig_outf = "cxxrtl".
Proof. reflexivity. Qed.

Lemma named_glob (dir : path) (suf : string) (files : list path) (p : path) :
  p ∈ PurePath.glob_rec dir suf files → named suf p.
Proof. unfold PurePath.glob_rec. rewrite list_elem_of_filter. by intros [[_ ?] _]. Qed.

(** Paths whose names end differently are different paths. *)
Lemma named_differ (s1 s2 : string) (c1 c2 : ascii) (p : path) :
  last_char s1 = Some c1 → last_char s2 = Some c2 → c1 ≠ c2 →
  named s1 p → named s2 p → False.
Proof.
  unfold named. intros H1 H2 Hne Hp1 Hp2.
  pose proof (ends_with_last_char _ _ _ Hp1 H1).
  pose proof (ends_with_last_char _ _ _ Hp2 H2). congruence.
Qed.

Lemma make_absolute_name (wd p r : path) :
  _make_absolute wd p = Ok r →
  PurePath.name r = PurePath.name p ∨ PurePath.name r = "".
Proof.
  unfold _make_absolute. destruct (is_absolute p).
  - destruct (PurePath.relative_to p wd) as [r'|[]] eqn:Hr; try discriminate.
    intros [= <-]. apply relative_to_Ok in Hr as (_ & _ & Hparts).
    unfold PurePath.name. rewrite Hparts.
    destruct (parts r') as [|x l] using rev_ind; [by right|left].
    by rewrite app_assoc, !List.last_last.
  - intros [= <-]. by left.
Qed.

Lemma dict_set_Forall {K V} `{EqDecision K} (P : K * V → Prop) k v (d : list (K * V)) :
  P (k, v) → Forall P d → Forall P (dict_set k v d).
Proof.
  intros Hkv Hd. induction Hd as [|[k' v'] d Hk' Hd IH]; simpl.
  - by repeat constructor.
  - destruct (decide (k = k')) as [<-|_]; by constructor.
Qed.

(** Every entry of [cc_odep_paths]: a [.cc] source, a [.o] object, [.h]
    dependencies. *)
Lemma cc_odep_paths_named :
  Forall (λ '(cc_path, (o_path, dep_paths)),
            named ".cc" cc_path ∧ named ".o" o_path ∧ Forall (named ".h") dep_paths)
    (cc_odep_paths np env).
Proof.
  unfold cc_odep_paths.
  set (depfs := PurePath.glob_rec _ ".h" _).
  assert (Hdeps : Forall (named ".h") depfs).
  { apply Forall_forall. intros p. apply named_glob. }
  assert (Hsrc : Forall (named ".cc") (PurePath.glob_rec (np_path np ["cxxrtl"]) ".cc"
                                         (listing env))).
  { apply Forall_forall. intros p. apply named_glob. }
  revert Hsrc. generalize (PurePath.glob_rec (np_path np ["cxxrtl"]) ".cc" (listing env)).
  assert (Hinit : Forall (λ '(cc_path, (o_path, dep_paths)),
                    named ".cc" cc_path ∧ named ".o" o_path ∧
                    Forall (named ".h") dep_paths)
                    [(cxxrtl_cc_path np, (np_path_build np [np_name np +:+ ".o"],
                                          @nil path))]).
  { repeat constructor.
    - apply named_build, name_suffix_cc.
    - apply named_build, name_suffix_o. }
  revert Hinit. generalize [(cxxrtl_cc_path np,
                             (np_path_build np [np_name np +:+ ".o"], @nil path))].
  intros d Hd srcs Hsrcs. revert d Hd.
  induction Hsrcs as [|p srcs Hp _ IH]; intros d Hd; [done|].
  simpl. apply IH. apply dict_set_Forall; [|done].
  split; [done|]. split; [|done]. apply named_build, name_suffix_o.
Qed.

(** What the actions of each stage read and write, by the names of the
    paths. *)
Definition out_kind (k : nat) (q : path) : Prop :=
  match k with
  | 0 => named ".cc" q
  | 1 => named ".o" q
  | 2 => PurePath.name q = "cxxrtl"
  | _ => False
  end.

Definition in_kind (k : nat) (q : path) : Prop :=
  match k with
  | 0 => named ".il" q ∨ named "-cxxrtl.ys" q ∨ PurePath.name q = ""
  | 1 => named ".cc" q ∨ named ".h" q
  | 2 => named ".o" q ∨ named ".zig" q
  | _ => False
  end.

Lemma cc_o_paths_named p : p ∈ cc_o_paths np env → named ".o" p.
Proof.
  unfold cc_o_paths. intros ([cc [o deps]] & -> & Hin)%list_elem_of_fmap.
  pose proof cc_odep_paths_named as Hall. rewrite Forall_forall in Hall.
  by destruct (Hall _ Hin) as (_ & ? & _).
Qed.

Lemma stage_io args k a :
  a ∈ stage_nth k (log_of args) →
  out_kind k (output a) ∧ ∀ p, p ∈ inputs a → in_kind k p.
Proof.
  destruct k as [|[|[|k]]].
  - rewrite rtlil_stage. unfold script_paths.
    destruct (_make_absolute (cwd env) (np_path_build np _)) as [ys|] eqn:Hys;
      [|by intros ?%elem_of_nil].
    destruct (_make_absolute (cwd env) (il_path np)); [|by intros ?%elem_of_nil].
    destruct (_make_absolute (cwd env) (cxxrtl_cc_path np)); [|by intros ?%elem_of_nil].
    intros ->%list_elem_of_singleton. simpl. split.
    + apply named_build, name_suffix_cc.
    + intros p [->|[->|?%elem_of_nil]%elem_of_cons]%elem_of_cons; [| |done].
      * left. apply named_build, name_suffix_il.
      * right. destruct (make_absolute_name _ _ _ Hys) as [Hn|Hn]; [left|by right].
        unfold named. rewrite Hn. apply (named_build _ _ name_suffix_ys).
  - rewrite compile_stage.
    destruct (script_paths np env); [|by intros ?%elem_of_nil].
    intros ([cc [o deps]] & -> & Hin)%list_elem_of_fmap.
    pose proof cc_odep_paths_named as Hall. rewrite Forall_forall in Hall.
    destruct (Hall _ Hin) as (Hcc & Ho & Hdeps). simpl. split; [done|].
    intros p [->|Hp]%elem_of_cons; [by left|right].
    rewrite Forall_forall in Hdeps. by apply Hdeps.
  - rewrite link_stage.
    destruct (script_paths np env); [|by intros ?%elem_of_nil].
    unfold link_action. destruct (uses_zig platform).
    + destruct (zig_o_args np env); [|by intros ?%elem_of_nil].
      intros ->%list_elem_of_singleton. simpl. split; [apply name_zig_outf|].
      intros p [Hp|Hp]%elem_of_app; [left; by apply cc_o_paths_named|right].
      by eapply named_glob.
    + intros ->%list_elem_of_singleton. simpl. split; [apply name_exe_o_path|].
      intros p Hp. left. by apply cc_o_paths_named.
  - rewrite later_stage by lia. by intros ?%elem_of_nil.
Qed.

Ltac names_clash :=
  exfalso;
  match goal with
  | H1 : named ?s1 ?q, H2 : named ?s2 ?q |- _ =>
      eapply (named_differ s1 s2 _ _ q);
        [reflexivity | reflexivity | | exact H1 | exact H2]; discriminate
  | Hn : PurePath.name ?q = _, H : named _ ?q |- _ =>
      unfold named in H; rewrite Hn in H; vm_compute in H; discriminate
  | Hn : PurePath.name ?q = _, Hn' : PurePath.name ?q = _ |- _ =>
      rewrite Hn in Hn'; discriminate
  end.

(** C4: whenever an action registered by [main] reads the output of an
    action registered by [main], the producer is in an earlier batch than
    the consumer, so its [run] has returned before the consumer is
    registered.  The output of the first stage is read in the second stage
    only, and the outputs of the second stage in the third only. *)
Theorem staging_discipline (args : Args) (i j : nat) (a b : Action) :
  a ∈ stage_nth i (log_of args) →
  b ∈ stage_nth j (log_of args) →
  output a ∈ inputs b →
  i < j ∧ (i = 0 → j = 1) ∧ (i = 1 → j = 2).
Proof.
  intros [Hout _]%stage_io [_ Hin]%stage_io Hdep.
  specialize (Hin _ Hdep). clear Hdep.
  destruct i as [|[|[|i]]], j as [|[|[|j]]]; simpl in Hout, Hin;
    try done; try (split; [lia|split; intros; lia]);
    destruct_or?; names_clash.
Qed.


End Driver_claims.

(** ** The validity oracle and the executor *)


(** Every input of [a] is there and none is newer than [a]'s output. *)
Definition inputs_not_newer (files : gmap path file) (a : Action) : Prop :=
  ∀ i, i ∈ inputs a →
    ∃ f out, files !! i = Some f ∧ files !! output a = Some out ∧
             (mtime f ≤ mtime out)%Z.

Lemma existsb_false {A} (f : A → bool) (l : list A) :
  existsb f l = false ↔ ∀ x, x ∈ l → f x = false.
Proof.
  induction l as [|y l IH]; simpl.
  - split; [by intros _ x ?%elem_of_nil | done].
  - rewrite orb_false_iff, IH. split.
    + intros [Hy Hl] x [->|Hx]%elem_of_cons; [done | by apply Hl].
    + intros Hall. split; [apply Hall; by left|]. intros x Hx. apply Hall. by right.
Qed.

Lemma existsb_ext_in {A} (f g : A → bool) (l : list A) :
  (∀ x, x ∈ l → f x = g x) → existsb f l = existsb g l.
Proof.
  induction l as [|y l IH]; intros Hfg; simpl; [done|].
  rewrite Hfg by left. rewrite IH; [done|]. intros x Hx. apply Hfg. by right.
Qed.

Lemma entry_of_lookup sch (files : gmap path file) (ins : list path) (i : path) :
  rec_fingerprints (entry_of sch files ins) !! i =
    if decide (i ∈ ins) then fingerprint sch <$> files !! i else None.
Proof.
  unfold entry_of. cbn [rec_fingerprints].
  set (g := λ i : path, (λ f, (i, fingerprint sch f)) <$> files !! i).
  induction ins as [|k ins IH].
  { case_decide as H; [by apply elem_of_nil in H | done]. }
  assert (Hcons : (list_to_map (omap g (k :: ins)) : gmap path Z) !! i =
                    match files !! k with
                    | Some f =>
                        <[k := fingerprint sch f]>
                          (list_to_map (omap g ins) : gmap path Z) !! i
                    | None => (list_to_map (omap g ins) : gmap path Z) !! i
                    end).
  { simpl. unfold g at 1. by destruct (files !! k). }
  rewrite Hcons. clear Hcons. destruct (files !! k) as [f|] eqn:Hk.
  - destruct (decide (k = i)) as [->|Hne].
    + rewrite lookup_insert_eq, decide_True by left. by rewrite Hk.
    + rewrite lookup_insert_ne by done. rewrite IH.
      repeat case_decide; try done.
      * exfalso. apply H0. by right.
      * exfalso. apply elem_of_cons in H0 as [?|?]; congruence.
  - rewrite IH. repeat case_decide; try done.
    + exfalso. apply H0. by right.
    + apply elem_of_cons in H0 as [->|?]; [by rewrite Hk | done].
Qed.

Lemma entry_of_dom sch (files : gmap path file) (ins : list path) :
  (∀ i, i ∈ ins → is_Some (files !! i)) →
  dom (rec_fingerprints (entry_of sch files ins)) =@{gset path} list_to_set ins.
Proof.
  intros Hex. apply set_eq. intros i.
  rewrite elem_of_dom, entry_of_lookup, elem_of_list_to_set.
  destruct (decide (i ∈ ins)) as [Hin|Hin].
  - destruct (Hex i Hin) as [f ->]. simpl. split; [done | by eexists].
  - split; [by intros [? ?] | done].
Qed.

(** An unforced action whose output is there, whose run record is the one
    taken from the present files, and whose inputs are there and no newer
    than the output, is fresh. *)
Lemma fresh_with_entry sch (st : state) (a : Action) :
  forceRun a = false →
  run_record st !! output a = Some (entry_of sch (fs st) (inputs a)) →
  inputs_not_newer (fs st) a →
  is_Some (fs st !! output a) →
  is_stale sch st a = false.
Proof.
  intros Hforce Hrec Hnewer [out Hout]. unfold is_stale.
  rewrite Hforce, Hout, Hrec.
  change (rec_success (entry_of sch (fs st) (inputs a))) with true. cbn [negb].
  rewrite bool_decide_eq_true_2.
  2:{ apply entry_of_dom. intros i Hi. destruct (Hnewer i Hi) as (f & _ & -> & _).
      by eexists. }
  cbn [negb]. rewrite (proj2 (existsb_false _ _)).
  2:{ intros i Hi. rewrite entry_of_lookup, decide_True by done.
      by rewrite bool_decide_eq_true_2. }
  apply existsb_false. intros i Hi.
  destruct (Hnewer i Hi) as (f & out' & -> & Hout' & Hle).
  rewrite Hout in Hout'. injection Hout' as <-. lia.
Qed.


(** What a successful execution leaves behind. *)
Lemma execute_Ok exec sch (st st' : state) (a : Action) :
  execute exec sch st a = (st', None) →
  (∀ i, i ∈ inputs a → is_Some (fs st !! i)) ∧
  (exec a (fs st)).2 = true ∧
  fs st' = (exec a (fs st)).1 ∧
  is_Some (fs st' !! output a) ∧
  run_record st' = <[output a := entry_of sch (fs st') (inputs a)]> (run_record st).
Proof.
  unfold execute. destruct (List.find _ (inputs a)) as [missing|] eqn:Hfind; [done|].
  destruct (exec a (fs st)) as [files ok] eqn:Hexec.
  destruct ok; simpl; [|done].
  destruct (bool_decide (is_Some (files !! output a))) eqn:Hout; [|done].
  intros [= <-]. simpl. apply bool_decide_eq_true in Hout.
  split; [|done]. intros i Hi.
  pose proof (find_none _ _ Hfind i (proj1 (list_elem_of_In _ _) Hi)) as Hnone.
  simpl in Hnone. apply bool_decide_eq_false in Hnone.
  by destruct (fs st !! i); [eexists|].
Qed.



(** *** Running a stage twice *)

(** The actions of a stage are independent: no two write the same output,
    and none reads what one of them writes. *)
Definition independent (stage : list Action) : Prop :=
  NoDup (output <$> stage) ∧
  ∀ a b, a ∈ stage → b ∈ stage → output a ∉ inputs b.

(** Executing an action of the stage changes no file but its output. *)
Definition writes_own_output (exec : Action → gmap path file → gmap path file * bool)
    (stage : list Action) : Prop :=
  ∀ a files p, a ∈ stage → p ≠ output a → (exec a files).1 !! p = files !! p.

(** A successful execution leaves the output no older than the inputs. *)
Definition leaves_output_newest (exec : Action → gmap path file → gmap path file * bool)
    (stage : list Action) : Prop :=
  ∀ a files i f out,
    a ∈ stage → (exec a files).2 = true → i ∈ inputs a →
    (exec a files).1 !! i = Some f → (exec a files).1 !! output a = Some out →
    (mtime f ≤ mtime out)%Z.

Lemma is_stale_ext sch (st st' : state) (a : Action) :
  fs st' !! output a = fs st !! output a →
  (∀ i, i ∈ inputs a → fs st' !! i = fs st !! i) →
  run_record st' !! output a = run_record st !! output a →
  is_stale sch st' a = is_stale sch st a.
Proof.
  intros Hout Hins Hrec. unfold is_stale. rewrite Hout, Hrec.
  destruct (forceRun a); [done|]. destruct (fs st !! output a) as [out|]; [|done].
  destruct (run_record st !! output a) as [e|]; [|done].
  destruct (negb (rec_success e)); [done|]. destruct (negb (bool_decide _)); [done|].
  rewrite (existsb_ext_in
             (λ i, negb (bool_decide (fingerprint sch <$> fs st' !! i =
                                      rec_fingerprints e !! i)))
             (λ i, negb (bool_decide (fingerprint sch <$> fs st !! i =
                                      rec_fingerprints e !! i))) (inputs a))
    by (intros i Hi; by rewrite Hins).
  destruct (existsb _ (inputs a)); [done|].
  apply existsb_ext_in. intros i Hi. by rewrite Hins.
Qed.

Section Rerun.

Variable exec : Action → gmap path file → gmap path file * bool.
Variable sch : scheme.

Lemma run_stage_cons_Ok a rest st st1 executed :
  run_stage exec sch (a :: rest) st = (st1, executed, None) →
  (is_stale sch st a = false ∧ run_stage exec sch rest st = (st1, executed, None)) ∨
  (is_stale sch st a = true ∧
   ∃ st' executed',
     execute exec sch st a = (st', None) ∧
     run_stage exec sch rest st' = (st1, executed', None) ∧
     executed = a :: executed').
Proof.
  cbn [run_stage]. destruct (is_stale sch st a); [|by left].
  destruct (execute exec sch st a) as [st' [[]|]] eqn:Hexec; try done.
  destruct (run_stage exec sch rest st') as [[st'' executed'] r] eqn:Hrest.
  intros [= -> <- ->]. right. split; [done|]. by eexists _, _.
Qed.

Lemma execute_frame a st st' p :
  writes_own_output exec [a] →
  execute exec sch st a = (st', None) →
  p ≠ output a →
  fs st' !! p = fs st !! p ∧ run_record st' !! p = run_record st !! p.
Proof.
  intros Hframe (_ & _ & Hfs & _ & Hrec)%execute_Ok Hp.
  rewrite Hfs, Hrec. split.
  - apply Hframe; [by left | done].
  - by apply lookup_insert_ne.
Qed.

Lemma run_stage_frame stage st st1 executed p :
  writes_own_output exec stage →
  run_stage exec sch stage st = (st1, executed, None) →
  p ∉ output <$> stage →
  fs st1 !! p = fs st !! p ∧ run_record st1 !! p = run_record st !! p.
Proof.
  revert st executed. induction stage as [|a rest IH]; intros st executed Hframe.
  - by intros [= <- _].
  - intros Hrun Hp. rewrite fmap_cons, not_elem_of_cons in Hp. destruct Hp as [Hpa Hp].
    assert (Hrest : writes_own_output exec rest).
    { intros b files q Hb. apply Hframe. by right. }
    apply run_stage_cons_Ok in Hrun
      as [[_ Hrun]|(_ & st' & executed' & Hexec & Hrun & _)].
    + by eapply IH.
    + destruct (IH _ _ Hrest Hrun Hp) as [-> ->].
      eapply execute_frame; [|done..]. intros b files q ->%list_elem_of_singleton.
      apply Hframe. by left.
Qed.

Lemma execute_fresh a st st' :
  forceRun a = false →
  output a ∉ inputs a →
  writes_own_output exec [a] →
  leaves_output_newest exec [a] →
  execute exec sch st a = (st', None) →
  is_stale sch st' a = false.
Proof.
  intros Hforce Hself Hframe Hnewest Hexec.
  pose proof Hexec as (Hins & Hok & Hfs & [out Hout] & Hrec)%execute_Ok.
  apply fresh_with_entry; [done| | |by eexists].
  - rewrite Hrec. apply lookup_insert_eq.
  - intros i Hi. destruct (Hins i Hi) as [f Hf].
    assert (Hi' : fs st' !! i = Some f).
    { rewrite Hfs, Hframe; [done | by left | intros ->; done]. }
    exists f, out. split; [done|]. split; [done|].
    rewrite Hfs in Hi', Hout. eapply Hnewest; [by left|done..].
Qed.

Lemma run_stage_all_fresh stage st st1 executed :
  Forall (λ a, forceRun a = false) stage →
  independent stage →
  writes_own_output exec stage →
  leaves_output_newest exec stage →
  run_stage exec sch stage st = (st1, executed, None) →
  Forall (λ a, is_stale sch st1 a = false) stage.
Proof.
  revert st executed. induction stage as [|a rest IH];
    intros st executed Hforce [Hnodup Hindep] Hframe Hnewest Hrun; [constructor|].
  apply Forall_cons in Hforce as [Hfa Hforce].
  rewrite fmap_cons in Hnodup. apply NoDup_cons in Hnodup as [Hout Hnodup].
  assert (Hindep' : independent rest).
  { split; [done|]. intros b c Hb Hc. apply Hindep; by right. }
  assert (Hframe' : writes_own_output exec rest).
  { intros b files q Hb. apply Hframe. by right. }
  assert (Hnewest' : leaves_output_newest exec rest).
  { intros b files i f out Hb. apply Hnewest. by right. }
  assert (Hkeep : ∀ st' executed',
            run_stage exec sch rest st' = (st1, executed', None) →
            is_stale sch st1 a = is_stale sch st' a).
  { intros st' executed' Hrest. apply is_stale_ext.
    - by eapply run_stage_frame.
    - intros i Hi. eapply run_stage_frame; [done..|].
      intros (b & Hb & Hbin)%list_elem_of_fmap.
      apply (Hindep b a); [by right | by left | by rewrite <-Hb].
    - by eapply run_stage_frame. }
  apply run_stage_cons_Ok in Hrun
    as [[Hfresh Hrun]|(_ & st' & executed' & Hexec & Hrun & _)].
  - constructor; [|by eapply IH]. by erewrite Hkeep.
  - constructor; [|by eapply IH]. erewrite Hkeep by done.
    eapply execute_fresh; [done| | | |done].
    + apply Hindep; by left.
    + intros b files q ->%list_elem_of_singleton. apply Hframe. by left.
    + intros b files i f out ->%list_elem_of_singleton. apply Hnewest. by left.
Qed.

Lemma run_stage_fresh_noop stage st :
  Forall (λ a, is_stale sch st a = false) stage →
  run_stage exec sch stage st = (st, [], None).
Proof.
  induction 1 as [|a rest Ha _ IH]; [done|]. cbn [run_stage]. by rewrite Ha.
Qed.

(** C7, amended: when a stage of independent actions, none of them forced,
    has been run to success, each execution having written its own output
    only and left it no older than its inputs, running the same stage again
    on the files and the run record as they are executes no action: every
    action is fresh, and neither the files nor the run record change. *)
Theorem rerun_executes_nothing (stage : list Action) (st st1 : state)
    (executed : list Action) :
  Forall (λ a, forceRun a = false) stage →
  independent stage →
  writes_own_output exec stage →
  leaves_output_newest exec stage →
  run_stage exec sch stage st = (st1, executed, None) →
  Forall (λ a, is_stale sch st1 a = false) stage ∧
  run_stage exec sch stage st1 = (st1, [], None).
Proof.
  intros Hforce Hindep Hframe Hnewest Hrun.
  assert (Hfresh : Forall (λ a, is_stale sch st1 a = false) stage)
    by by eapply run_stage_all_fresh.
  split; [done|]. by apply run_stage_fresh_noop.
Qed.

End Rerun.

(** ** The driver and the executor on the example project *)

(** C1: the driver does not keep outputs apart.  In the project [blinky]
    with the sources [cxxrtl/a.cc] and [cxxrtl/dir/a.cc], the second stage
    holds two different compile actions, one per source, with the same
    output [build/a.o]; the orchestrator's check at registration rejects the
    second. *)
Theorem same_stem_sources_share_output :
  ∃ a b,
    stage_nth 1 Example.log !! 1 = Some a ∧
    stage_nth 1 Example.log !! 2 = Some b ∧
    inputs a !! 0 = Some (Example.P "/home/u/blinky/cxxrtl/a.cc") ∧
    inputs b !! 0 = Some (Example.P "/home/u/blinky/cxxrtl/dir/a.cc") ∧
    a ≠ b ∧
    output a = Example.P "/home/u/blinky/build/a.o" ∧
    output b = Example.P "/home/u/blinky/build/a.o" ∧
    addAction b [a] = inl (DuplicateOutputRegistered (output b)).
Proof.
  eexists _, _.
  split; [vm_compute; reflexivity|]. split; [vm_compute; reflexivity|].
  split; [vm_compute; reflexivity|]. split; [vm_compute; reflexivity|].
  split; [intros H; apply (f_equal inputs) in H; vm_compute in H; discriminate|].
  split; [vm_compute; reflexivity|]. split; vm_compute; reflexivity.
Qed.

(** C6, as stated, fails: on a platform without Zig the link action is
    neither a compile action nor the Zig link action, and its command line
    holds [-O0] with [--optimize none] and [-O3] with [--optimize rtl]. *)
Lemma optimize_changes_cxx_link_argv :
  uses_zig Example.platform = false ∧
  (∃ a argv, stage_nth 2 Example.log_none = [a] ∧ operation a = Argv argv ∧
             A_str "-O0" ∈ argv ∧ A_str "-O3" ∉ argv) ∧
  (∃ a argv, stage_nth 2 Example.log = [a] ∧ operation a = Argv argv ∧
             A_str "-O3" ∈ argv ∧ A_str "-O0" ∉ argv) ∧
  stage_nth 2 Example.log_none ≠ stage_nth 2 Example.log.
Proof.
  split; [reflexivity|]. split; [|split].
  - eexists _, _. split; [vm_compute; reflexivity|]. split; [reflexivity|]. split.
    + apply (count_occ_elem_of _ _ 1); [vm_compute; reflexivity | lia].
    + rewrite (count_occ_elem_of _ _ 0); [lia | vm_compute; reflexivity].
  - eexists _, _. split; [vm_compute; reflexivity|]. split; [reflexivity|]. split.
    + apply (count_occ_elem_of _ _ 1); [vm_compute; reflexivity | lia].
    + rewrite (count_occ_elem_of _ _ 0); [lia | vm_compute; reflexivity].
  - intros H.
    apply (f_equal (λ l, (λ a, match operation a with
                               | Argv argv => count_occ arg_eq_dec argv (A_str "-O3")
                               | _ => 0
                               end) <$> l)) in H.
    vm_compute in H. discriminate.
Qed.

(** C7, as stated, fails: a stage that holds a forced action executes it
    again when it is run a second time on unchanged files. *)
Lemma forced_action_runs_again :
  (run_stage Example.touch By_mtime Example.stage_forced Example.st0).2 = None ∧
  (run_stage Example.touch By_mtime Example.stage_forced Example.st0).1.2 =
    Example.stage_forced ∧
  (run_stage Example.touch By_mtime Example.stage_forced
     (run_stage Example.touch By_mtime Example.stage_forced Example.st0).1.1).1.2 =
    Example.stage_forced ∧
  Example.stage_forced ≠ [].
Proof. split; [|split; [|split]]; try (vm_compute; reflexivity). discriminate. Qed.

(** *** The example world is well behaved *)

Lemma newest_bound (files : gmap path file) (ins : list path) (i : path) (f : file) :
  i ∈ ins → files !! i = Some f → (mtime f ≤ Example.newest files ins)%Z.
Proof.
  intros Hin Hf. induction ins as [|k ins IH]; [by apply elem_of_nil in Hin|].
  simpl. apply elem_of_cons in Hin as [<-|Hin].
  - rewrite Hf. lia.
  - specialize (IH Hin). destruct (files !! k); lia.
Qed.

Lemma touch_writes_own_output stage : writes_own_output Example.touch stage.
Proof.
  intros a files p _ Hp. unfold Example.touch. cbn [fst].
  by apply lookup_insert_ne.
Qed.

Lemma touch_leaves_output_newest stage : leaves_output_newest Example.touch stage.
Proof.
  intros a files i f out _ _ Hi Hf Hout. unfold Example.touch in Hf, Hout.
  cbn [fst] in Hf, Hout. rewrite lookup_insert_eq in Hout. injection Hout as <-.
  cbn [mtime]. destruct (decide (output a = i)) as [<-|Hne].
  - rewrite lookup_insert_eq in Hf. injection Hf as <-. cbn [mtime]. lia.
  - rewrite lookup_insert_ne in Hf by done.
    pose proof (newest_bound files (inputs a) i f Hi Hf). lia.
Qed.

(** Independence, in the form that a computation decides. *)
Lemma independent_by_computation (stage : list Action) :
  bool_decide (NoDup (output <$> stage) ∧
               Forall (λ a, Forall (λ b, output a ∉ inputs b) stage) stage) = true →
  independent stage.
Proof.
  intros [Hnodup Hall]%bool_decide_eq_true. split; [done|].
  intros a b Ha Hb. rewrite Forall_forall in Hall.
  specialize (Hall a Ha). rewrite Forall_forall in Hall. by apply Hall.
Qed.

(** *** The theorems at work on the example *)

Definition example_dumped : path * json :=
  match Example.log !! 12 with
  | Some (Json_dump p j) => (p, j)
  | _ => (Example.P "", JArray [])
  end.

Lemma compilation_database_export_witness :
  ∃ before after,
    Example.log = before ++ Json_dump example_dumped.1 example_dumped.2 :: after ∧
    example_dumped.1 = np_path_build Example.np ["compile_commands.json"] ∧
    example_dumped.2 = compile_commands_json Example.np (ledger_of before) ∧
    is_compilation_database (PurePath.str (np_path Example.np []))
      (ledger_of before) example_dumped.2.
Proof.
  apply (compilation_database_export ledger_of Example.np Example.platform
           Example.env Example.args).
  apply (list_elem_of_lookup_2 _ 12). vm_compute. reflexivity.
Defined.

Definition example_rtlil (args : Args) : Action :=
  rtlil_action Example.np args (Example.P "build/blinky-cxxrtl.ys").

Definition example_compile : Action :=
  compile_action Example.np Example.platform Example.args Example.env
    (cxxrtl_cc_path Example.np,
     (np_path_build Example.np ["blinky.o"], [])).







Lemma staging_discipline_witness : 0 < 1 ∧ (0 = 0 → 1 = 1) ∧ (0 = 1 → 1 = 2).
Proof.
  apply (staging_discipline ledger_of Example.np Example.platform Example.env
           Example.args 0 1 (example_rtlil Example.args) example_compile).
  - apply (list_elem_of_lookup_2 _ 0). vm_compute. reflexivity.
  - apply (list_elem_of_lookup_2 _ 0). vm_compute. reflexivity.
  - apply (list_elem_of_lookup_2 _ 0). vm_compute. reflexivity.
Defined.

Lemma direct_run_witness :
  ((∃ cmd, Run_cmd cmd "run" ∈ Example.log) ↔ compile Example.args = false) ∧
  (compile Example.args = false →
     ∃ before cmd rest,
       Example.log =
         before ++ [Run_cmd (A_path (exe_o_path Example.np) :: rest) "run"] ∧
       cmd = A_path (exe_o_path Example.np) :: rest ∧
       Forall (λ e, ¬ is_run_cmd e) before ∧
       length (batches before) = 3) ∧
  (compile Example.args = true → Forall (λ e, ¬ is_run_cmd e) Example.log).
Proof.
  apply (direct_run_iff_not_compile ledger_of Example.np Example.platform Example.env
           Example.args Example.log).
  vm_compute. reflexivity.
Defined.

Definition example_st1 : state :=
  (run_stage Example.touch By_mtime Example.stage Example.st0).1.1.

Lemma rerun_executes_nothing_witness :
  Forall (λ a, is_stale By_mtime example_st1 a = false) Example.stage ∧
  run_stage Example.touch By_mtime Example.stage example_st1 = (example_st1, [], None).
Proof.
  apply (rerun_executes_nothing Example.touch By_mtime Example.stage Example.st0
           example_st1 Example.stage).
  - repeat constructor.
  - apply independent_by_computation. vm_compute. reflexivity.
  - apply touch_writes_own_output.
  - apply touch_leaves_output_newest.
  - vm_compute. reflexivity.
Defined.

Lemma compile_argv_has_g_witness :
  ∃ argv pre post a0,
    operation example_compile = Argv argv ∧
    A_str "-g" ∈ argv ∧
    count_occ arg_eq_dec argv (A_str "-g") = (if debug Example.args then 2 else 1) ∧
    argv = pre ++ (if debug Example.args then [A_str "-g"] else []) ++ post ∧
    stage_nth 1 (main ledger_of Example.np Example.platform
                   (set_debug false Example.args) Example.env []).1 !! 0 = Some a0 ∧
    operation a0 = Argv (pre ++ post) ∧
    inputs a0 = inputs example_compile ∧ output a0 = output example_compile ∧
    workdir a0 = workdir example_compile ∧ forceRun a0 = forceRun example_compile.
Proof.
  apply (compile_argv_has_g ledger_of Example.np Example.platform Example.env
           Example.args 0 example_compile).
  vm_compute. reflexivity.
Defined.

(** * More of the driver *)

(** ** [_make_absolute] and [_Optimize] *)

Lemma make_absolute_relative (wd p r : path) :
  _make_absolute wd p = Ok r → is_absolute r = false.
Proof.
  unfold _make_absolute. destruct (is_absolute p) eqn:Hp.
  - destruct (PurePath.relative_to p wd) as [r'|[]] eqn:Hr; try discriminate.
    intros [= <-]. by apply relative_to_Ok in Hr as (_ & ? & _).
  - by intros [= <-].
Qed.

(** X1: what [_make_absolute] returns, it returns unchanged when applied to
    it again, whatever the working directory. *)
Theorem make_absolute_idempotent (wd wd' p r : path) :
  _make_absolute wd p = Ok r → _make_absolute wd' r = Ok r.
Proof.
  intros Hr%make_absolute_relative. unfold _make_absolute. by rewrite Hr.
Qed.

Lemma make_absolute_idempotent_witness :
  _make_absolute (Example.P "/tmp") (Example.P "build/blinky.il") =
    Ok (Example.P "build/blinky.il").
Proof.
  apply (make_absolute_idempotent (Example.P "/home/u/blinky") (Example.P "/tmp")
           (Example.P "/home/u/blinky/build/blinky.il")).
  vm_compute. reflexivity.
Defined.

(** [_Optimize(s)], as [argparse] calls it on the option's value
    ([type=_Optimize]): the member whose value is [s], [ValueError] when
    there is none. *)
Definition optimize_of_value (s : string) : result _Optimize.t :=
  match List.find (λ o, String.eqb (_Optimize.value o) s) _Optimize.members with
  | Some o => Ok o
  | None => Raise ValueError
  end.

(** X2: [str] and the constructor of [_Optimize] are inverse to each other:
    a member's string gives the member back, a string that is accepted is
    the string of the member it gives, and a string that is no member's is
    refused with [ValueError]. *)
Theorem optimize_value_round_trip :
  (∀ o, optimize_of_value (_Optimize.value o) = Ok o) ∧
  (∀ s o, optimize_of_value s = Ok o → _Optimize.value o = s) ∧
  (∀ s, (∀ o, _Optimize.value o ≠ s) → optimize_of_value s = Raise ValueError).
Proof.
  split; [|split].
  - by intros [].
  - intros s o. unfold optimize_of_value.
    destruct (List.find _ _) as [o'|] eqn:Hfind; [|discriminate].
    intros [= <-]. apply find_some in Hfind as [_ Heq]. by apply String.eqb_eq.
  - intros s Hs. unfold optimize_of_value.
    destruct (List.find _ _) as [o'|] eqn:Hfind; [|done].
    apply find_some in Hfind as [_ Heq]. apply String.eqb_eq in Heq. by destruct (Hs o').
Qed.

(** X3: the two properties of an optimize mode tell which mode it is. *)
Theorem optimize_mode_of_flags (o : _Optimize.t) :
  o = match _Optimize.opt_rtl o, _Optimize.opt_app o with
      | true, true => _Optimize.both
      | true, false => _Optimize.rtl
      | false, true => _Optimize.app
      | false, false => _Optimize.none
      end.
Proof. by destruct o. Qed.

(** ** [add_arguments] *)

Lemma sorted_Permutation (l1 l2 : list string) : l1 ≡ₚ l2 → sorted l1 = sorted l2.
Proof.
  intros Hperm. unfold sorted. apply (StronglySorted_unique String.le).
  - apply StronglySorted_merge_sort; apply _.
  - apply StronglySorted_merge_sort; apply _.
  - by rewrite !merge_sort_Permutation.
Qed.

(** X4: the order in which the project lists its targets does not matter:
    two projects whose target names are the same up to order get the same
    arguments, or the same exception. *)
Theorem add_arguments_order_irrelevant (np np' : Project) (p : Parser) :
  default [] (cxxrtl_targets np) ≡ₚ default [] (cxxrtl_targets np') →
  (add_arguments np p).2 = (add_arguments np' p).2 ∧
  parser_arguments (add_arguments np p).1 = parser_arguments (add_arguments np' p).1.
Proof.
  intros Hperm%sorted_Permutation. unfold add_arguments. rewrite Hperm.
  by destruct (sorted (default [] (cxxrtl_targets np'))).
Qed.

Lemma add_arguments_order_irrelevant_witness :
  (add_arguments
     {| np_name := "p"; np_origin := Example.P "/p";
        cxxrtl_targets := Some ["b"; "a"] |}
     {| parser_func := None; parser_arguments := [] |}).2 =
  (add_arguments
     {| np_name := "q"; np_origin := Example.P "/q";
        cxxrtl_targets := Some ["a"; "b"] |}
     {| parser_func := None; parser_arguments := [] |}).2 ∧
  parser_arguments
    (add_arguments
       {| np_name := "p"; np_origin := Example.P "/p";
          cxxrtl_targets := Some ["b"; "a"] |}
       {| parser_func := None; parser_arguments := [] |}).1 =
  parser_arguments
    (add_arguments
       {| np_name := "q"; np_origin := Example.P "/q";
          cxxrtl_targets := Some ["a"; "b"] |}
       {| parser_func := None; parser_arguments := [] |}).1.
Proof.
  apply add_arguments_order_irrelevant. simpl. apply Permutation_swap.
Defined.

(** X5: [add_arguments] sets [func] to [main] on the project before anything
    else, so also when it raises; when it raises it has added no argument;
    when it returns it has kept the arguments that were there and added six,
    with the flags [-t], [-c], [-O], [-d], [-v], [-f] in this order, none
    but [-t] required. *)
Theorem add_arguments_parser (np : Project) (p : Parser) :
  parser_func (add_arguments np p).1 = Some np ∧
  match (add_arguments np p).2 with
  | Raise _ => parser_arguments (add_arguments np p).1 = parser_arguments p
  | Ok _ =>
      ∃ added,
        parser_arguments (add_arguments np p).1 = parser_arguments p ++ added ∧
        arg_flags <$> added =
          [ ["-t"; "--target"]; ["-c"; "--compile"]; ["-O"; "--optimize"];
            ["-d"; "--debug"]; ["-v"; "--vcd"]; ["-f"; "--force"] ] ∧
        Forall (λ a, arg_required a = true → arg_flags a = ["-t"; "--target"]) added
  end.
Proof.
  unfold add_arguments.
  destruct (sorted (default [] (cxxrtl_targets np))) as [|first rest]; [done|].
  split; [done|]. simpl. eexists. rewrite <-!app_assoc. split; [reflexivity|].
  split; [done|]. repeat constructor; simpl; try discriminate; done.
Qed.

(** ** The dictionary of sources *)

Lemma dict_set_keys {K V} `{EqDecision K} (k k' : K) (v : V) (d : list (K * V)) :
  k' ∈ (dict_set k v d).*1 ↔ k' = k ∨ k' ∈ d.*1.
Proof.
  induction d as [|[k0 v0] d IH]; simpl.
  - rewrite list_elem_of_singleton, elem_of_nil. tauto.
  - destruct (decide (k = k0)) as [->|Hne]; simpl; rewrite !elem_of_cons.
    + tauto.
    + rewrite IH. tauto.
Qed.

Lemma dict_set_NoDup {K V} `{EqDecision K} (k : K) (v : V) (d : list (K * V)) :
  NoDup d.*1 → NoDup (dict_set k v d).*1.
Proof.
  induction d as [|[k0 v0] d IH]; simpl; intros Hd.
  - apply NoDup_singleton.
  - apply NoDup_cons in Hd as [Hk0 Hd].
    destruct (decide (k = k0)) as [->|Hne]; simpl; apply NoDup_cons.
    + done.
    + split; [|by apply IH]. rewrite dict_set_keys. intros [?|?]; [congruence | done].
Qed.

Lemma dict_set_head {K V} `{EqDecision K} (k : K) (v : V) (d : list (K * V)) :
  d ≠ [] → head (dict_set k v d).*1 = head d.*1.
Proof. destruct d as [|[k0 v0] d]; [done|]. simpl. by destruct (decide (k = k0)). Qed.

Lemma dict_set_not_nil {K V} `{EqDecision K} (k : K) (v : V) (d : list (K * V)) :
  dict_set k v d ≠ [].
Proof. destruct d as [|[k0 v0] d]; [done|]. simpl. by destruct (decide (k = k0)). Qed.

Section Driver_more.

Variable compile_commands : list event → list (string * list string).
Variables (np : Project) (platform : Platform) (env : Env).

Local Abbreviation run_of args := (main compile_commands np platform args env []).
Local Abbreviation log_of args := (main compile_commands np platform args env []).1.

Lemma cc_odep_paths_keys :
  NoDup (cc_odep_paths np env).*1 ∧
  head (cc_odep_paths np env).*1 = Some (cxxrtl_cc_path np) ∧
  ∀ p, p ∈ (cc_odep_paths np env).*1 ↔
       p = cxxrtl_cc_path np ∨
       p ∈ PurePath.glob_rec (np_path np ["cxxrtl"]) ".cc" (listing env).
Proof.
  unfold cc_odep_paths.
  generalize (PurePath.glob_rec (np_path np ["cxxrtl"]) ".h" (listing env)).
  intros depfs.
  generalize (PurePath.glob_rec (np_path np ["cxxrtl"]) ".cc" (listing env)).
  intros srcs.
  set (d0 := [(cxxrtl_cc_path np, (np_path_build np [np_name np +:+ ".o"], @nil path))]).
  assert (H0 : d0 ≠ [] ∧ NoDup d0.*1 ∧ head d0.*1 = Some (cxxrtl_cc_path np) ∧
               ∀ p, p ∈ d0.*1 ↔ p = cxxrtl_cc_path np ∨ p ∈ @nil path).
  { split; [done|]. split; [apply NoDup_singleton|]. split; [done|].
    intros p. simpl. rewrite list_elem_of_singleton, elem_of_nil. tauto. }
  revert H0. generalize d0. clear d0.
  assert (Hgen : ∀ (done_ : list path) d,
            d ≠ [] ∧ NoDup d.*1 ∧ head d.*1 = Some (cxxrtl_cc_path np) ∧
            (∀ p, p ∈ d.*1 ↔ p = cxxrtl_cc_path np ∨ p ∈ done_) →
            let d' := foldl (λ d p, dict_set p
                               (np_path_build np [PurePath.stem p +:+ ".o"], depfs) d)
                        d srcs in
            NoDup d'.*1 ∧ head d'.*1 = Some (cxxrtl_cc_path np) ∧
            ∀ p, p ∈ d'.*1 ↔ p = cxxrtl_cc_path np ∨ p ∈ done_ ++ srcs).
  { induction srcs as [|s srcs IH]; intros done_ d (Hne & Hnodup & Hhead & Hkeys).
    - simpl. rewrite app_nil_r. done.
    - simpl. specialize (IH (done_ ++ [s])
                           (dict_set s (np_path_build np [PurePath.stem s +:+ ".o"],
                                        depfs) d)).
      rewrite <-app_assoc in IH. apply IH.
      split; [apply dict_set_not_nil|]. split; [by apply dict_set_NoDup|].
      split; [by rewrite dict_set_head|].
      intros p. rewrite dict_set_keys, Hkeys, elem_of_app, list_elem_of_singleton.
      tauto. }
  intros d H0. apply (Hgen [] d H0).
Qed.

Lemma compile_action_source args x :
  head (inputs (compile_action np platform args env x)) = Some x.1.
Proof. by destruct x as [cc [o deps]]. Qed.

(** X6: every source is compiled once.  When the second stage is there, the
    sources of its actions (the first input of each) are pairwise distinct;
    the first is the C++ file generated from the design, and the sources are
    that file and the [.cc] files found under [cxxrtl], no other. *)
Theorem sources_compiled_once (args : Args) :
  stage_nth 1 (log_of args) ≠ [] →
  let sources := (λ a, head (inputs a)) <$> stage_nth 1 (log_of args) in
  NoDup sources ∧
  head sources = Some (Some (cxxrtl_cc_path np)) ∧
  ∀ p, Some p ∈ sources ↔
       p = cxxrtl_cc_path np ∨
       p ∈ PurePath.glob_rec (np_path np ["cxxrtl"]) ".cc" (listing env).
Proof.
  rewrite compile_stage. destruct (script_paths np env); [|done]. intros _.
  assert (Hsrc : (λ a, head (inputs a)) <$> compile_actions np platform args env =
                 Some <$> (cc_odep_paths np env).*1).
  { unfold compile_actions. rewrite <-!list_fmap_compose. apply list_fmap_ext.
    intros _ x _. apply compile_action_source. }
  cbv zeta. rewrite Hsrc.
  destruct cc_odep_paths_keys as (Hnodup & Hhead & Hkeys).
  split; [by apply (NoDup_fmap_2 Some)|].
  split.
  - destruct ((cc_odep_paths np env).*1); simplify_eq/=; done.
  - intros p. rewrite <-Hkeys. rewrite list_elem_of_fmap. split.
    + by intros (q & [= ->] & Hq).
    + intros Hp. by exists p.
Qed.

(** X7: the link reads every object of the second stage.  The inputs of the
    link action are the outputs of the compile actions, in their order,
    followed on a Zig platform by the [.zig] files found under [cxxrtl]. *)
Theorem link_reads_compile_outputs (args : Args) (link : Action) :
  link ∈ stage_nth 2 (log_of args) →
  inputs link =
    (output <$> stage_nth 1 (log_of args)) ++
    (if uses_zig platform
     then PurePath.glob_rec (np_path np ["cxxrtl"]) ".zig" (listing env)
     else []).
Proof.
  rewrite link_stage, compile_stage.
  destruct (script_paths np env); [|by intros ?%elem_of_nil].
  assert (Hout : output <$> compile_actions np platform args env = cc_o_paths np env).
  { unfold compile_actions, cc_o_paths. rewrite <-list_fmap_compose.
    apply list_fmap_ext. by intros _ [? [? ?]] _. }
  rewrite Hout. unfold link_action. destruct (uses_zig platform).
  - destruct (zig_o_args np env); [|by intros ?%elem_of_nil].
    by intros ->%list_elem_of_singleton.
  - intros ->%list_elem_of_singleton. simpl. by rewrite app_nil_r.
Qed.

Definition is_string_arg (x : arg) : Prop :=
  match x with
  | A_str _ => True
  | A_path _ => False
  end.

(** X8: a compile command compiles what its action declares.  Its command
    line ends with [-c], the action's first input, [-o] and the action's
    output; before that it holds strings only, starting with [c++], or with
    [zig] and [c++] on a Zig platform. *)
Theorem compile_command_matches_action (args : Args) (a : Action) :
  a ∈ stage_nth 1 (log_of args) →
  ∃ src deps front,
    inputs a = src :: deps ∧
    operation a =
      Argv (front ++ [A_str "-c"; A_path src; A_str "-o"; A_path (output a)]) ∧
    Forall is_string_arg front ∧
    (if uses_zig platform
     then ∃ flags, front = A_str "zig" :: A_str "c++" :: flags
     else ∃ flags, front = A_str "c++" :: flags).
Proof.
  rewrite compile_stage. destruct (script_paths np env); [|by intros ?%elem_of_nil].
  intros ([cc_path [o_path deps]] & -> & _)%list_elem_of_fmap.
  exists cc_path, deps.
  exists ((if uses_zig platform then [A_str "zig"] else []) ++
          [A_str "c++"] ++ (A_str <$> cxxflags platform args) ++
          [ A_str ("-I" +:+ PurePath.str (np_path np ["build"]));
            A_str ("-I" +:+ PurePath.str
                     (PurePath.joinpath (yosys_data_dir env)
                        ["include"; "backends"; "cxxrtl"; "runtime"])) ]).
  split; [done|]. split; [|split].
  - simpl. unfold compile_cmd, cxxflags. f_equal.
    destruct (uses_zig platform); simpl; rewrite <-?app_assoc; done.
  - rewrite !Forall_app. split; [destruct (uses_zig platform); repeat constructor|].
    split; [repeat constructor|]. split; [|repeat constructor].
    apply Forall_fmap, Forall_forall. by intros.
  - destruct (uses_zig platform); by eexists.
Qed.

(** [args] with another value for [--compile]. *)
Definition set_compile (b : bool) (args : Args) : Args :=
  {| target := target args; compile := b; optimize := optimize args;
     debug := debug args; vcd := vcd args; force := force args |}.

(** The arguments [--vcd] adds to the run of the executable. *)
Definition vcd_arguments (args : Args) : list arg :=
  match vcd args with
  | Some v => if decide (v = "") then [] else [A_str "--vcd"; A_str v]
  | None => []
  end.

Lemma run_cmd_of_args_vcd args :
  run_cmd_of_args np args = A_path (exe_o_path np) :: vcd_arguments args.
Proof.
  unfold run_cmd_of_args, vcd_arguments, truthy. destruct (vcd args) as [v|]; [|done].
  simpl. destruct (decide (v = "")) as [->|Hv]; [done|].
  by rewrite bool_decide_eq_true_2.
Qed.

(** X9: [--compile] takes nothing from the build.  A run without it that
    returns makes the calls of the run with it, in the same order, and then
    one more: it runs [build/cxxrtl], with [--vcd] and its value when the
    value is not the empty string, and with no argument otherwise. *)
Theorem compile_only_drops_the_run (args : Args) (log : list event) :
  run_of (set_compile true args) = (log, Ok tt) →
  run_of (set_compile false args) =
    (log ++ [Run_cmd (A_path (exe_o_path np) :: vcd_arguments args) "run"], Ok tt).
Proof.
  pose proof (main_log compile_commands np platform (set_compile true args) env) as Ht.
  pose proof (main_log compile_commands np platform (set_compile false args) env) as Hf.
  destruct (script_paths np env) as [[[ys il] cc]|e].
  2:{ destruct Ht as (evs & _ & ->). discriminate. }
  change (link_events np platform (set_compile true args) env)
    with (link_events np platform args env) in Ht.
  change (link_events np platform (set_compile false args) env)
    with (link_events np platform args env) in Hf.
  change (built_events compile_commands np platform (set_compile true args) env ys il cc)
    with (built_events compile_commands np platform args env ys il cc) in Ht.
  change (built_events compile_commands np platform (set_compile false args) env ys il cc)
    with (built_events compile_commands np platform args env ys il cc) in Hf.
  rewrite Ht, Hf. destruct (link_events np platform args env) as [evs|e]; [|discriminate].
  unfold run_events.
  change (compile (set_compile true args)) with true.
  change (compile (set_compile false args)) with false.
  cbv iota. rewrite app_nil_r. intros Heq.
  assert (log = built_events compile_commands np platform args env ys il cc ++ evs)
    as -> by congruence.
  rewrite <-app_assoc.
  change (run_cmd_of_args np (set_compile false args)) with (run_cmd_of_args np args).
  by rewrite run_cmd_of_args_vcd.
Qed.

(** Whether a registered action still waits for its stage to be run. *)
Definition awaits_run (waiting : bool) (e : event) : bool :=
  match e with
  | Add_process _ _ _ _ => true
  | Run => false
  | _ => waiting
  end.

Lemma awaits_run_file_events b evs :
  Forall is_file_event evs → foldl awaits_run b evs = b.
Proof.
  intros Hevs. revert b. induction Hevs as [|e evs He _ IH]; intros b; [done|].
  simpl. rewrite IH. by destruct e.
Qed.

Lemma awaits_run_true_false l :
  foldl awaits_run true l = false → ∃ k, l !! k = Some Run.
Proof.
  induction l as [|e l IH]; [done|]. simpl. intros Hl.
  destruct e; try (destruct (IH Hl) as [k Hk]; by exists (S k)).
  by exists 0.
Qed.

Lemma main_awaits_no_run args : foldl awaits_run false (log_of args) = false.
Proof.
  pose proof (main_log compile_commands np platform args env) as Hlog.
  destruct (script_paths np env) as [[[ys il] cc]|e].
  - rewrite Hlog. unfold link_events.
    destruct (uses_zig platform); [destruct (zig_o_args np env)|]; cbn [fst];
      unfold built_events, run_events; rewrite ?foldl_app;
      by destruct (compile args).
  - destruct Hlog as (evs & Hevs & ->). cbn [fst].
    by rewrite foldl_app, awaits_run_file_events.
Qed.

(** X10: [main] leaves no action behind of its own doing.  In a run that
    returns, and in a run that the [AssertionError] of [_make_absolute] or
    the [ValueError] of [relative_to] (line 187) stops, every [add_process]
    call made is followed by a [run] call.  (A run that an exception out of
    the runner, the file system or [json] stops is not meant: [open] failing
    in line 165 leaves the compile actions registered and not run.) *)
Theorem every_add_process_is_run (args : Args) (i : nat)
    (cmd : command) (infs : list path) (outf : path) (chdir : option string) :
  log_of args !! i = Some (Add_process cmd infs outf chdir) →
  ∃ j, i < j ∧ log_of args !! j = Some Run.
Proof.
  intros Hi. pose proof (main_awaits_no_run args) as Hno.
  rewrite <-(take_drop_middle _ _ _ Hi) in Hno.
  rewrite foldl_app in Hno. cbn [foldl awaits_run] in Hno.
  apply awaits_run_true_false in Hno as [k Hk].
  rewrite lookup_drop in Hk. exists (S i + k). split; [lia | done].
Qed.








Definition copies (log : list event) : list (path * path) :=
  omap (λ e, match e with Copy src dst => Some (src, dst) | _ => None end) log.

Lemma omap_compile_events {B} (f : event → option B) args :
  (∀ cmd infs outf chdir, f (Add_process cmd infs outf chdir) = None) →
  omap f (compile_events np platform args env) = [].
Proof.
  intros Hf. unfold compile_events.
  induction (cc_odep_paths np env) as [|[cc [o deps]] l IH]; [done|].
  simpl. by rewrite Hf.
Qed.



(** X13: where the executable is.  In a run of [main] that returns, the
    third stage holds one action, the link.  Without Zig it writes
    [build/cxxrtl], runs in the working directory as every other action
    does, and nothing is copied; with Zig it writes
    [cxxrtl/zig-out/bin/cxxrtl], is the only action to run in the directory
    [cxxrtl], and its output is copied, once, to [build/cxxrtl]. *)
Theorem executable_location (args : Args) (log : list event) :
  run_of args = (log, Ok tt) →
  (∀ k a, k < 2 → a ∈ stage_nth k log → workdir a = None) ∧
  ∃ link,
    stage_nth 2 log = [link] ∧
    if uses_zig platform then
      output link = PurePath.of_string "cxxrtl/zig-out/bin/cxxrtl" ∧
      workdir link = Some "cxxrtl" ∧
      copies log = [(PurePath.of_string "cxxrtl/zig-out/bin/cxxrtl", exe_o_path np)]
    else
      output link = exe_o_path np ∧ workdir link = None ∧ copies log = [].
Proof.
  intros Hrun.
  pose proof (main_log compile_commands np platform args env) as Hlog.
  pose proof (rtlil_stage compile_commands np platform env args) as H0.
  pose proof (compile_stage compile_commands np platform env args) as H1.
  pose proof (link_stage compile_commands np platform env args) as H2.
  rewrite Hrun in Hlog, H0, H1, H2. cbn [fst] in H0, H1, H2.
  destruct (script_paths np env) as [[[ys il] cc]|e].
  2:{ destruct Hlog as (evs & _ & Hlog). discriminate. }
  split.
  - intros k a Hk. destruct k as [|[|k]]; [| |lia].
    + rewrite H0. by intros ->%list_elem_of_singleton.
    + rewrite H1. by intros ([? [? ?]] & -> & _)%list_elem_of_fmap.
  - assert (Hcopies : ∀ evs,
              log = built_events compile_commands np platform args env ys il cc ++
                    evs ++ run_events np args →
              copies log = copies evs).
    { intros evs ->. unfold copies, built_events, registered_events, run_events.
      rewrite !omap_app, omap_compile_events by done.
      destruct (compile args); simpl; by rewrite app_nil_r. }
    unfold link_events, link_action in *. destruct (uses_zig platform).
    + destruct (zig_o_args np env) as [o_args|e]; [|discriminate].
      apply (f_equal fst) in Hlog. cbn [fst] in Hlog. eexists. split; [exact H2|].
      split; [done|]. split; [done|]. by rewrite (Hcopies _ Hlog).
    + apply (f_equal fst) in Hlog. cbn [fst] in Hlog. eexists. split; [exact H2|].
      split; [done|]. split; [done|]. by rewrite (Hcopies _ Hlog).
Qed.

End Driver_more.

(** *** The further theorems at work on the example *)

Lemma sources_compiled_once_witness :
  let sources := (λ a, head (inputs a)) <$> stage_nth 1 Example.log in
  NoDup sources ∧
  head sources = Some (Some (cxxrtl_cc_path Example.np)) ∧
  ∀ p, Some p ∈ sources ↔
       p = cxxrtl_cc_path Example.np ∨
       p ∈ PurePath.glob_rec (np_path Example.np ["cxxrtl"]) ".cc"
             (listing Example.env).
Proof.
  apply (sources_compiled_once ledger_of Example.np Example.platform Example.env
           Example.args).
  vm_compute. discriminate.
Defined.

Definition example_link : Action :=
  link_cxx_action Example.np Example.platform Example.args Example.env.

Lemma link_reads_compile_outputs_witness :
  inputs example_link =
    (output <$> stage_nth 1 Example.log) ++
    (if uses_zig Example.platform
     then PurePath.glob_rec (np_path Example.np ["cxxrtl"]) ".zig" (listing Example.env)
     else []).
Proof.
  apply (link_reads_compile_outputs ledger_of Example.np Example.platform Example.env
           Example.args example_link).
  apply (list_elem_of_lookup_2 _ 0). vm_compute. reflexivity.
Defined.

Lemma compile_command_matches_action_witness :
  ∃ src deps front,
    inputs example_compile = src :: deps ∧
    operation example_compile =
      Argv (front ++ [A_str "-c"; A_path src; A_str "-o";
                      A_path (output example_compile)]) ∧
    Forall is_string_arg front ∧
    (if uses_zig Example.platform
     then ∃ flags, front = A_str "zig" :: A_str "c++" :: flags
     else ∃ flags, front = A_str "c++" :: flags).
Proof.
  apply (compile_command_matches_action ledger_of Example.np Example.platform
           Example.env Example.args example_compile).
  apply (list_elem_of_lookup_2 _ 0). vm_compute. reflexivity.
Defined.

Definition example_log_compile_only : list event :=
  (main ledger_of Example.np Example.platform (set_compile true Example.args)
     Example.env []).1.

Lemma compile_only_drops_the_run_witness :
  main ledger_of Example.np Example.platform (set_compile false Example.args)
    Example.env [] =
  (example_log_compile_only ++
     [Run_cmd (A_path (exe_o_path Example.np) :: vcd_arguments Example.args) "run"],
   Ok tt).
Proof.
  apply (compile_only_drops_the_run ledger_of Example.np Example.platform Example.env
           Example.args example_log_compile_only).
  vm_compute. reflexivity.
Defined.

Lemma every_add_process_is_run_witness :
  ∃ j, 7 < j ∧ Example.log !! j = Some Run.
Proof.
  eapply (every_add_process_is_run ledger_of Example.np Example.platform Example.env
            Example.args 7).
  vm_compute. reflexivity.
Defined.





Lemma executable_location_witness :
  (∀ k a, k < 2 → a ∈ stage_nth k Example.log → workdir a = None) ∧
  ∃ link,
    stage_nth 2 Example.log = [link] ∧
    if uses_zig Example.platform then
      output link = PurePath.of_string "cxxrtl/zig-out/bin/cxxrtl" ∧
      workdir link = Some "cxxrtl" ∧
      copies Example.log =
        [(PurePath.of_string "cxxrtl/zig-out/bin/cxxrtl", exe_o_path Example.np)]
    else
      output link = exe_o_path Example.np ∧ workdir link = None ∧
      copies Example.log = [].
Proof.
  apply (executable_location ledger_of Example.np Example.platform Example.env
           Example.args Example.log).
  vm_compute. reflexivity.
Defined.

(** ** What the options do not touch *)

Section Driver_options.

Variable compile_commands : list event → list (string * list string).
Variables (np : Project) (platform : Platform) (env : Env).

Local Abbreviation log_of args := (main compile_commands np platform args env []).1.

(** X14: [--compile] and [--vcd] change nothing of what is built: two
    command lines that agree on the target, on [--optimize], on [--debug]
    and on [--force] register the same actions, in the same batches. *)
Theorem compile_and_vcd_leave_build_alone (args args' : Args) :
  target args = target args' →
  optimize args = optimize args' →
  debug args = debug args' →
  force args = force args' →
  batches (log_of args) = batches (log_of args').
Proof.
  intros Ht Ho Hd Hf. rewrite !main_batches.
  destruct args, args'. simpl in Ht, Ho, Hd, Hf. subst. reflexivity.
Qed.

(** X15: [--debug] changes command lines of the compiler only.  The first
    stage is the same with and without it, on a Zig platform the link is the
    same too, and no action changes its inputs, its output, its working
    directory or its force flag.  Nothing else changes either: [main]
    returns or raises as it does without the option, and makes the same
    calls in the same order, the command that runs the executable among
    them, the command lines of the registered actions and the compilation
    database that records them apart. *)
Theorem debug_changes_compiler_argv_only (args : Args) (b : bool) :
  stage_nth 0 (log_of (set_debug b args)) = stage_nth 0 (log_of args) ∧
  (uses_zig platform = true →
   stage_nth 2 (log_of (set_debug b args)) = stage_nth 2 (log_of args)) ∧
  shapes (batches (log_of (set_debug b args))) = shapes (batches (log_of args)) ∧
  (main compile_commands np platform (set_debug b args) env []).2 =
    (main compile_commands np platform args env []).2 ∧
  without_argv <$> log_of (set_debug b args) = without_argv <$> log_of args.
Proof.
  pose proof (main_without_argv compile_commands np platform env args
                (set_debug b args) eq_refl eq_refl eq_refl) as [Hres Hlog].
  split; [|split; [|split; [|done]]].
  - by rewrite !rtlil_stage.
  - intros Hzig. rewrite !link_stage. unfold link_action. by rewrite Hzig.
  - rewrite !main_batches.
    destruct (script_paths np env) as [[[ys il] cc]|e]; [|done].
    unfold link_action.
    assert (Hcompile : shape <$> compile_actions np platform (set_debug b args) env =
                       shape <$> compile_actions np platform args env).
    { unfold compile_actions. rewrite <-!list_fmap_compose.
      apply list_fmap_ext. by intros _ [? [? ?]] _. }
    unfold shapes.
    destruct (uses_zig platform); [destruct (zig_o_args np env)|];
      cbn [fmap list_fmap]; by rewrite Hcompile.
Qed.

End Driver_options.

Definition example_args_vcd : Args :=
  {| target := "cxxrtl"; compile := true; optimize := _Optimize.rtl;
     debug := false; vcd := Some "trace.vcd"; force := false |}.

Lemma compile_and_vcd_leave_build_alone_witness :
  batches Example.log =
  batches (main ledger_of Example.np Example.platform example_args_vcd Example.env []).1.
Proof.
  apply (compile_and_vcd_leave_build_alone ledger_of Example.np Example.platform
           Example.env Example.args example_args_vcd); reflexivity.
Defined.
